(** * Gomoku GTP front end: the incremental run tracker and its command layer

    A shallow embedding of [gtp_connection.py].  The run tracker
    ([insertKeyIntoDict]) keeps, per player, a dictionary from board
    coordinates to the four directional run lengths through that stone and
    a per-player maximum ([colorMax]).  The command layer ([play_cmd],
    [clear_board_cmd], [boardsize_cmd], the [gogui-rules_*] commands) reads
    and resets that state.

    The first half of the file is the model: the tracker, Python's strings
    and integers as far as the commands use them, the coordinate functions,
    the board, the commands and command sequences.  The second half proves
    what the tracker and the commands do. *)

From Stdlib Require Import ZArith Lia Ascii String.
From Stdlib Require Import DecimalString DecimalZ DecimalPos DecimalN.
From stdpp Require Import gmap strings list fin_maps fin_sets sorting.

Local Open Scope Z_scope.

(** ** Coordinates and per-stone entries *)

(** A coordinate is the Python tuple [(row, col)]. *)
Abbreviation Coord := (Z * Z)%type.

(** The four keys of the inner dictionary
    [{'upDown':1,'leftRight':1,'backslash':1,"forwardslash":1}],
    in insertion order. *)
Inductive Key := UpDown | LeftRight | Backslash | Forwardslash.

#[global] Instance Key_eq_dec : EqDecision Key.
Proof. solve_decision. Defined.

Definition keys : list Key := [UpDown; LeftRight; Backslash; Forwardslash].

(** The inner dictionary of one stone: it always holds exactly the four
    keys above, so it is a record. *)
Record Entry := mkEntry {
  upDown : Z;
  leftRight : Z;
  backslash : Z;
  forwardslash : Z
}.

#[global] Instance Entry_eq_dec : EqDecision Entry.
Proof. solve_decision. Defined.

#[global] Instance Entry_inhabited : Inhabited Entry :=
  populate (mkEntry 1 1 1 1).

(** [e[key]] *)
Definition getKey (key : Key) (e : Entry) : Z :=
  match key with
  | UpDown => upDown e
  | LeftRight => leftRight e
  | Backslash => backslash e
  | Forwardslash => forwardslash e
  end.

(** [e[key] = v] *)
Definition setKey (key : Key) (v : Z) (e : Entry) : Entry :=
  match key with
  | UpDown => mkEntry v (leftRight e) (backslash e) (forwardslash e)
  | LeftRight => mkEntry (upDown e) v (backslash e) (forwardslash e)
  | Backslash => mkEntry (upDown e) (leftRight e) v (forwardslash e)
  | Forwardslash => mkEntry (upDown e) (leftRight e) (backslash e) v
  end.

(** [e.items()] seen as the list of values, in key order. *)
Definition values (e : Entry) : list Z := (λ k, getKey k e) <$> keys.

(** ** Neighbours along a direction

    [firstNighbour key coord counter] is the cell the source computes for
    [upNighbour], [leftNighbour], [leftUpNighbour] and [leftDownNighbour]
    ([counter = 0] is the immediate neighbour, the loops then use
    [counter = 1, 2, ...]); [secondNighbour] is the same for
    [downNighbour], [rightNighbour], [rightDownNighbour] and
    [rightUpNighbour]. *)
Definition firstNighbour (key : Key) (coord : Coord) (counter : Z) : Coord :=
  match key with
  | UpDown => (coord.1 - 1 - counter, coord.2)
  | LeftRight => (coord.1, coord.2 - 1 - counter)
  | Forwardslash => (coord.1 - 1 - counter, coord.2 + 1 + counter)
  | Backslash => (coord.1 - 1 - counter, coord.2 - 1 - counter)
  end.

Definition secondNighbour (key : Key) (coord : Coord) (counter : Z) : Coord :=
  match key with
  | UpDown => (coord.1 + 1 + counter, coord.2)
  | LeftRight => (coord.1, coord.2 + 1 + counter)
  | Forwardslash => (coord.1 + 1 + counter, coord.2 - 1 - counter)
  | Backslash => (coord.1 + 1 + counter, coord.2 + 1 + counter)
  end.

(** ** The propagation loop

    <<
    counter = 1
    while nighbour in dictPointer.keys():
        dictPointer.get(nighbour)[key] = dictPointer.get(coord)[key]
        nighbour = <the cell at distance 1 + counter>
        counter += 1
    >>
    The loop leaves the key set alone and visits pairwise distinct cells, so
    it runs at most [size dictPointer] times; [fuel] is that bound
    ([walk_reaches_end] shows it is never what stops the loop). *)
Fixpoint walk (fuel : nat) (nighbour : Z → Coord) (key : Key) (coord : Coord)
    (cur : Coord) (counter : Z) (dictPointer : gmap Coord Entry)
    : gmap Coord Entry :=
  match fuel with
  | O => dictPointer
  | S fuel' =>
      match dictPointer !! cur with
      | None => dictPointer
      | Some e =>
          walk fuel' nighbour key coord (nighbour counter) (counter + 1)
            (<[cur := setKey key (getKey key (dictPointer !!! coord)) e]>
               dictPointer)
      end
  end.

Definition propagate (nighbour : Z → Coord) (key : Key) (coord : Coord)
    (dictPointer : gmap Coord Entry) : gmap Coord Entry :=
  walk (size dictPointer) nighbour key coord (nighbour 0) 1 dictPointer.

(** [dictPointer.get(coord)[key] += dictPointer.get(nighbour)[key]] *)
Definition addFrom (key : Key) (coord nighbour : Coord)
    (dictPointer : gmap Coord Entry) : gmap Coord Entry :=
  let e := dictPointer !!! coord in
  <[coord := setKey key (getKey key e + getKey key (dictPointer !!! nighbour)) e]>
    dictPointer.

(** One side of a direction: when the immediate neighbour is a key, add its
    length to the placed cell and propagate the sum along that side. *)
Definition mergeSide (nighbour : Z → Coord) (key : Key) (coord : Coord)
    (dictPointer : gmap Coord Entry) : gmap Coord Entry :=
  match dictPointer !! nighbour 0 with
  | Some _ => propagate nighbour key coord (addFrom key coord (nighbour 0) dictPointer)
  | None => dictPointer
  end.

(** The body of one [if key == ...:] branch: first side, second side, then
    the first side once more ("re-update upnighbor again!"). *)
Definition updateKey (key : Key) (coord : Coord)
    (dictPointer : gmap Coord Entry) : gmap Coord Entry :=
  let d1 := mergeSide (firstNighbour key coord) key coord dictPointer in
  let d2 := mergeSide (secondNighbour key coord) key coord d1 in
  propagate (firstNighbour key coord) key coord d2.

(** [dictPointer.setdefault(coord, {...all 1...})] *)
Definition setdefault (coord : Coord) (dictPointer : gmap Coord Entry)
    : gmap Coord Entry :=
  match dictPointer !! coord with
  | Some _ => dictPointer
  | None => <[coord := mkEntry 1 1 1 1]> dictPointer
  end.

(** Lines 351-467: [setdefault], then the loop over the four keys. *)
Definition updateDict (coord : Coord) (dictPointer : gmap Coord Entry)
    : gmap Coord Entry :=
  foldl (λ d key, updateKey key coord d) (setdefault coord dictPointer) keys.

(** Lines 474-476: raise the maximum to every larger value of the entry. *)
Definition updateMax (colorMax : Z) (e : Entry) : Z :=
  foldl (λ mx value, if mx <? value then value else mx) colorMax (values e).

(** ** Geometry of a direction

    [line key c i] is the cell [i] steps from [c] along [key], counted
    positive towards the second neighbour. *)
Definition line (key : Key) (c : Coord) (i : Z) : Coord :=
  match key with
  | UpDown => (c.1 + i, c.2)
  | LeftRight => (c.1, c.2 + i)
  | Forwardslash => (c.1 + i, c.2 - i)
  | Backslash => (c.1 + i, c.2 + i)
  end.

(** A maximal contiguous run of stones of one dictionary along [key]:
    [n] cells starting at [s], all of them keys, with both cells just
    outside not keys. *)
Definition maximal_run (d : gmap Coord Entry) (key : Key) (s : Coord) (n : Z)
    : Prop :=
  0 < n ∧ (∀ i, 0 ≤ i < n → is_Some (d !! line key s i)) ∧
  d !! line key s (-1) = None ∧ d !! line key s n = None.

(** Run uniformity: every cell of a maximal run stores the run's size. *)
Definition run_uniform (d : gmap Coord Entry) : Prop :=
  ∀ key s n, maximal_run d key s n →
    ∀ i, 0 ≤ i < n → getKey key <$> d !! line key s i = Some n.

(** [n] consecutive cells along the ray [nb 0, nb 1, ...] are keys and the
    next one is not. *)
Definition ray_extent (d : gmap Coord Entry) (nb : Z → Coord) (n : Z) : Prop :=
  0 ≤ n ∧ (∀ i, 0 ≤ i < n → is_Some (d !! nb i)) ∧ d !! nb n = None.

(** ** Python strings and integers

    Strings are byte strings; the commands only ever inspect ASCII. *)

Definition ord (a : ascii) : Z := Z.of_N (N_of_ascii a).

(** [str.lower()] on ASCII. *)
Definition lower_char (a : ascii) : ascii :=
  if (65 <=? ord a) && (ord a <=? 90) then ascii_of_N (N_of_ascii a + 32) else a.

Fixpoint lower (s : string) : string :=
  match s with
  | EmptyString => EmptyString
  | String a s' => String (lower_char a) (lower s')
  end.

(** [str.upper()] on ASCII. *)
Definition upper_char (a : ascii) : ascii :=
  if (97 <=? ord a) && (ord a <=? 122) then ascii_of_N (N_of_ascii a - 32) else a.

Fixpoint upper (s : string) : string :=
  match s with
  | EmptyString => EmptyString
  | String a s' => String (upper_char a) (upper s')
  end.

(** [sep.join(l)] *)
Fixpoint join (sep : string) (l : list string) : string :=
  match l with
  | [] => EmptyString
  | [s] => s
  | s :: l' => s +:+ sep +:+ join sep l'
  end.

(** [sorted(l)] on strings (code point order). *)
Definition sorted (l : list string) : list string :=
  merge_sort (λ a b : string, String.leb a b) l.

(** [s[i]], with Python's negative indices; [None] is [IndexError]. *)
Definition py_index (s : string) (i : Z) : option ascii :=
  let n := Z.of_nat (String.length s) in
  let i' := if i <? 0 then i + n else i in
  if (0 <=? i') && (i' <? n) then String.get (Z.to_nat i') s else None.

(** [str(n)] for an [int]. *)
Definition str (n : Z) : string := NilZero.string_of_int (Z.to_int n).

Definition is_digit (a : ascii) : bool := (48 <=? ord a) && (ord a <=? 57).

Definition is_space (a : ascii) : bool :=
  ((9 <=? ord a) && (ord a <=? 13)) || (ord a =? 32).

Fixpoint all_space (s : string) : bool :=
  match s with
  | EmptyString => true
  | String a s' => is_space a && all_space s'
  end.

Fixpoint all_digits (s : string) : bool :=
  match s with
  | EmptyString => true
  | String a s' => is_digit a && all_digits s'
  end.

Fixpoint lstrip (s : string) : string :=
  match s with
  | EmptyString => EmptyString
  | String a s' => if is_space a then lstrip s' else s
  end.

(** The digits of [int(s)]: decimal digits, single underscores between
    digits, then optional trailing white space. *)
Fixpoint digits_val (acc : Z) (prev_digit : bool) (s : string) : option Z :=
  match s with
  | EmptyString => if prev_digit then Some acc else None
  | String a s' =>
      if is_digit a then digits_val (10 * acc + (ord a - 48)) true s'
      else if Ascii.eqb a "_" then
             if prev_digit then digits_val acc false s' else None
      else if prev_digit && all_space s then Some acc else None
  end.

(** [int(s)]; [None] is [ValueError]. *)
Definition py_int (s : string) : option Z :=
  match lstrip s with
  | String "-" s' => Z.opp <$> digits_val 0 false s'
  | String "+" s' => digits_val 0 false s'
  | s' => digits_val 0 false s'
  end.

(** ** Exceptions and results *)

Inductive Exn :=
  | ValueError (msg : string)
  | KeyError (key : string)
  | AttributeError (attr : string)
  | UnboundLocalError (name : string)
  | IndexError
  | TypeError
  | AssertionError
  | InvalidSizeError.

Inductive Result (A : Type) :=
  | Ok (a : A)
  | Raise (e : Exn).
Arguments Ok {A} a.
Arguments Raise {A} e.

(** What a command writes: [respond(s)], or the
    [respond('Error: {}'.format(str(e)))] of [play_cmd]'s handler. *)
Inductive Response :=
  | Respond (s : string)
  | RespondException (e : Exn).

(** ** Coordinates as text *)

(** A move in coordinate form: the constant [PASS] or a tuple [(row, col)]. *)
Inductive Move := PASS | RC (row col : Z).

Definition column_letters : string := "abcdefghjklmnopqrstuvwxyz".

(** [point_to_coord]: [None] is the point [PASS].  [divmod] is the floor
    division of [Z]; [NS] is positive for every board size. *)
Definition point_to_coord (point : option Z) (boardsize : Z) : Move :=
  match point with
  | None => PASS
  | Some pt => let NS := boardsize + 1 in RC (pt `div` NS) (pt `mod` NS)
  end.

Section maxsize.
(** [board_util.MAXSIZE] is imported from a module that is not part of
    the sources at hand: it is a parameter here. *)
Variable MAXSIZE : Z.

Definition format_point (move : Move) : Result string :=
  match move with
  | PASS => Ok "pass"%string
  | RC row col =>
      if negb ((0 <=? row) && (row <? MAXSIZE))
         || negb ((0 <=? col) && (col <? MAXSIZE))
      then Raise (ValueError "")
      else match py_index column_letters (col - 1) with
           | Some ch => Ok (String ch (str row))
           | None => Raise IndexError
           end
  end.

(** The [try] block of [move_to_coord]: [None] is the [IndexError] or
    [ValueError] that the handler turns into "invalid point". *)
Definition parse_point (s : string) : option (Z * Z) :=
  match s with
  | EmptyString => None
  | String col_c rest =>
      if negb ((ord "a" <=? ord col_c) && (ord col_c <=? ord "z"))
         || Ascii.eqb col_c "i"
      then None
      else
        let col := ord col_c - ord "a" in
        let col := if ord col_c <? ord "i" then col + 1 else col in
        match py_int rest with
        | None => None
        | Some row => if row <? 1 then None else Some (row, col)
        end
  end.

Definition move_to_coord (point_str : string) (board_size : Z) : Result Move :=
  if negb ((2 <=? board_size) && (board_size <=? MAXSIZE))
  then Raise (ValueError "board_size out of range")
  else
    let s := lower point_str in
    if String.eqb s "pass" then Ok PASS
    else match parse_point s with
         | None => Raise (ValueError ("invalid point: '" +:+ s +:+ "'"))
         | Some (row, col) =>
             if negb ((col <=? board_size) && (row <=? board_size))
             then Raise (ValueError ("point off board: '" +:+ s +:+ "'"))
             else Ok (RC row col)
         end.
End maxsize.

(** ** The board

    The board object ([self.board]) and [board_util] are not among the
    sources; what the commands need of them follows the spec's Board State
    contract. *)

(** Modelled from the spec: the occupancy states of a cell, which are the
    colour codes [EMPTY], [BLACK], [WHITE] and [BORDER] of [board_util]. *)
Inductive Color := EMPTY | BLACK | WHITE | BORDER.

#[global] Instance Color_eq_dec : EqDecision Color.
Proof. solve_decision. Defined.

(** Modelled from the spec: [board_util.is_black_white], the two players. *)
Definition is_black_white (color : Color) : bool :=
  match color with BLACK | WHITE => true | _ => false end.

(** Modelled from the spec: [GoBoardUtil.opponent], the other player (only
    ever applied to a player's colour). *)
Definition opponent (color : Color) : Color :=
  match color with
  | BLACK => WHITE
  | WHITE => BLACK
  | EMPTY => BORDER
  | BORDER => EMPTY
  end.

(** Modelled from the spec: the board, its size, the occupancy of its
    cells and the player to move.  [stones] holds the occupied points;
    every other point of the board is Empty. *)
Record Board := mkBoard {
  bsize : Z;
  stones : gmap Z Color;
  current_player : Color
}.

(** Modelled from the spec: [board_util.coord_to_point], the inverse of
    [point_to_coord] above. *)
Definition coord_to_point (row col boardsize : Z) : Z :=
  let NS := boardsize + 1 in NS * row + col.

(** Modelled from the spec: the points of the N by N board, rows and
    columns 1 to N. *)
Definition board_points (boardsize : Z) : list Z :=
  row ← seqZ 1 boardsize; col ← seqZ 1 boardsize;
  [coord_to_point row col boardsize].

(** Modelled from the spec: [board.get_empty_points()], every Empty cell. *)
Definition get_empty_points (b : Board) : list Z :=
  filter (λ pt, stones b !! pt = None) (board_points (bsize b)).

(** Modelled from the spec: [board.reset(size)] empties an N by N board,
    makes Black the player to move, and fails outside [2, MAXSIZE]. *)
Definition reset (MAXSIZE : Z) (sz : Z) : Result Board :=
  if (2 <=? sz) && (sz <=? MAXSIZE) then Ok (mkBoard sz ∅ BLACK)
  else Raise InvalidSizeError.

(** Modelled from the spec: [board.play_move(point, color)], the spec's
    [place]: it fails on a cell that is not Empty and otherwise sets its
    occupancy, without changing the player to move; a pass (the point
    [None]) changes no occupancy.  The guard on the colour is the
    [assert is_black_white(color)] of the commented-out [simple_play_move]
    (lines 272-278). *)
Definition play_move (b : Board) (point : option Z) (color : Color)
    : Result (bool * Board) :=
  if negb (is_black_white color) then Raise AssertionError
  else match point with
       | None => Ok (true, b)
       | Some pt =>
           match stones b !! pt with
           | Some _ => Ok (false, b)
           | None =>
               Ok (true, mkBoard (bsize b) (<[pt := color]> (stones b))
                                 (current_player b))
           end
       end.

(** [color_to_int(c)] *)
Definition color_to_int (c : string) : Result Color :=
  if String.eqb c "b" then Ok BLACK
  else if String.eqb c "w" then Ok WHITE
  else if String.eqb c "e" then Ok EMPTY
  else if String.eqb c "BORDER" then Ok BORDER
  else Raise (KeyError c).

(** ** The run tracker *)

(** [dictStoreWhiteMove], [dictStoreBlackMove] and the two entries of
    [colorMax = {'b': _, 'w': _}]. *)
Record Tracker := mkTracker {
  dictStoreWhiteMove : gmap Coord Entry;
  dictStoreBlackMove : gmap Coord Entry;
  colorMax_b : Z;
  colorMax_w : Z
}.

(** [insertKeyIntoDict(color, coord, move)] ([move] is not used).  For a
    colour other than white or black [dictPointer] stays the local [{}]
    and [value > self.colorMax.get(...)] compares with [None]: a
    [TypeError], with [self] untouched. *)
Definition insertKeyIntoDict (self : Tracker) (color : string) (coord : Coord)
    : Result Tracker :=
  if String.eqb (lower color) "w" then
    let dictPointer := updateDict coord (dictStoreWhiteMove self) in
    Ok {| dictStoreWhiteMove := dictPointer;
          dictStoreBlackMove := dictStoreBlackMove self;
          colorMax_b := colorMax_b self;
          colorMax_w := updateMax (colorMax_w self) (dictPointer !!! coord) |}
  else if String.eqb (lower color) "b" then
    let dictPointer := updateDict coord (dictStoreBlackMove self) in
    Ok {| dictStoreWhiteMove := dictStoreWhiteMove self;
          dictStoreBlackMove := dictPointer;
          colorMax_b := updateMax (colorMax_b self) (dictPointer !!! coord);
          colorMax_w := colorMax_w self |}
  else Raise TypeError.

(** The tracker after the call, whether it returned or raised. *)
Definition recordPlacement (self : Tracker) (color : string) (coord : Coord)
    : Tracker :=
  match insertKeyIntoDict self color coord with
  | Ok self' => self'
  | Raise _ => self
  end.

(** A sequence of recorded placements, each a colour and a cell. *)
Definition recordAll (self : Tracker) (placements : list (string * Coord))
    : Tracker :=
  foldl (λ t pc, recordPlacement t pc.1 pc.2) self placements.

(** The state [clear_board_cmd] installs. *)
Definition clearedTracker : Tracker := mkTracker ∅ ∅ 0 0.

Inductive Player := Black | White.

#[global] Instance Player_eq_dec : EqDecision Player.
Proof. solve_decision. Defined.

(** The colour strings [insertKeyIntoDict] understands. *)
Definition playerOf (color : string) : option Player :=
  if String.eqb (lower color) "w" then Some White
  else if String.eqb (lower color) "b" then Some Black
  else None.

Definition dictOf (p : Player) (t : Tracker) : gmap Coord Entry :=
  match p with
  | White => dictStoreWhiteMove t
  | Black => dictStoreBlackMove t
  end.

Definition colorMaxOf (p : Player) (t : Tracker) : Z :=
  match p with
  | White => colorMax_w t
  | Black => colorMax_b t
  end.

(** A cell no stone has been recorded on. *)
Definition cell_empty (t : Tracker) (coord : Coord) : Prop :=
  dictStoreWhiteMove t !! coord = None ∧ dictStoreBlackMove t !! coord = None.

(** Tracker states of one game: [clear_board], then placements on empty
    cells recorded by [insertKeyIntoDict]. *)
Inductive reachable : Tracker → Prop :=
  | reachable_clear : reachable clearedTracker
  | reachable_insert t color coord t' :
      reachable t → cell_empty t coord →
      insertKeyIntoDict t color coord = Ok t' → reachable t'.

(** ** The connection

    [tracker = None] is the state [__init__] leaves: both dictionaries are
    [None] and the attribute [colorMax] does not exist.  The three are only
    ever assigned together, by [clear_board_cmd]. *)
Record GtpConnection := mkGtp {
  board : Board;
  tracker : option Tracker
}.

Definition withBoard (self : GtpConnection) (b : Board) : GtpConnection :=
  mkGtp b (tracker self).

(** [self.colorMax['w'] >= 5 or self.colorMax['b'] >= 5] *)
Definition oneSideWon (t : Tracker) : bool :=
  (5 <=? colorMax_w t) || (5 <=? colorMax_b t).

Section commands.
Variable MAXSIZE : Z.

(** [clear_board_cmd]: [self.reset(self.board.size)], then fresh
    dictionaries and [colorMax = {'b': 0, 'w': 0}].  A command that raises
    has changed nothing. *)
Definition clear_board_cmd (self : GtpConnection)
    : Result (Response * GtpConnection) :=
  match reset MAXSIZE (bsize (board self)) with
  | Raise e => Raise e
  | Ok b => Ok (Respond "", mkGtp b (Some clearedTracker))
  end.

(** [boardsize_cmd]: [self.reset(int(args[0]))] and nothing else. *)
Definition boardsize_cmd (self : GtpConnection) (arg : string)
    : Result (Response * GtpConnection) :=
  match py_int arg with
  | None =>
      Raise (ValueError ("invalid literal for int() with base 10: '" +:+ arg +:+ "'"))
  | Some sz =>
      match reset MAXSIZE sz with
      | Raise e => Raise e
      | Ok b => Ok (Respond "", withBoard self b)
      end
  end.

(** The loop building [gtp_moves]; it stops at the first exception. *)
Fixpoint format_points (moves : list Z) (boardsize : Z) : Result (list string) :=
  match moves with
  | [] => Ok []
  | move :: moves' =>
      match format_point MAXSIZE (point_to_coord (Some move) boardsize) with
      | Raise e => Raise e
      | Ok s =>
          match format_points moves' boardsize with
          | Raise e => Raise e
          | Ok l => Ok (s :: l)
          end
      end
  end.

(** [gogui_rules_legal_moves_cmd]: no move once a side has won, otherwise
    the empty points, formatted, sorted and in upper case. *)
Definition gogui_rules_legal_moves_cmd (self : GtpConnection) : Result Response :=
  match tracker self with
  | None => Raise (AttributeError "colorMax")
  | Some t =>
      if oneSideWon t then Ok (Respond "")
      else
        match format_points (get_empty_points (board self)) (bsize (board self)) with
        | Raise e => Raise e
        | Ok gtp_moves => Ok (Respond (upper (join " " (sorted gtp_moves))))
        end
  end.

(** [gogui_rules_final_result_cmd]: the full board is tested first
    ("evaluation goes after draw!"), then White, then Black. *)
Definition gogui_rules_final_result_cmd (self : GtpConnection) : Result Response :=
  if decide (length (get_empty_points (board self)) = 0%nat)
  then Ok (Respond "draw")
  else
    match tracker self with
    | None => Raise (AttributeError "colorMax")
    | Some t =>
        if 5 <=? colorMax_w t then Ok (Respond "white win")
        else if 5 <=? colorMax_b t then Ok (Respond "black win")
        else Ok (Respond "unknown")
    end.

(** [play_cmd(args)] with [args = [args0, args1]] (the argument count is
    checked by [has_arg_error]).  Every exception is caught by the
    handler and answered with [RespondException].  The debug message on
    success only reads the board. *)
Definition play_cmd (self : GtpConnection) (args0 args1 : string)
    : Response * GtpConnection :=
  let board_color := lower args0 in
  let board_move := args1 in
  match color_to_int board_color with
  | Raise e => (RespondException e, self)
  | Ok color =>
      if String.eqb (lower args1) "pass" then
        match play_move (board self) None color with
        | Raise e => (RespondException e, self)
        | Ok (_, b) =>
            (Respond "",
             withBoard self (mkBoard (bsize b) (stones b) (opponent color)))
        end
      else
        match move_to_coord MAXSIZE args1 (bsize (board self)) with
        | Raise e => (RespondException e, self)
        | Ok PASS =>
            (* [if coord:] fails and the message formats the unbound [move] *)
            (RespondException (UnboundLocalError "move"), self)
        | Ok (RC row col) =>
            let move := coord_to_point row col (bsize (board self)) in
            match tracker self with
            | None => (RespondException (AttributeError "colorMax"), self)
            | Some t =>
                if oneSideWon t
                then (Respond "One side is win game over!", self)
                else
                  match play_move (board self) (Some move) color with
                  | Raise e => (RespondException e, self)
                  | Ok (false, b) =>
                      (Respond ("Illegal Move: " +:+ board_move), withBoard self b)
                  | Ok (true, b) =>
                      match insertKeyIntoDict t args0 (row, col) with
                      | Ok t' => (Respond "", mkGtp b (Some t'))
                      | Raise e => (RespondException e, mkGtp b (Some t))
                      end
                  end
            end
        end
  end.

(** [genmove_cmd]: lines 332-341 need [go_engine.get_move] and
    [board.is_legal], which are not among the sources, so the engine's
    branch is a parameter. *)
Definition genmove_cmd
    (engine_move : GtpConnection → string → Result (Response * GtpConnection))
    (self : GtpConnection) (arg : string)
    : Result (Response * GtpConnection) :=
  match tracker self with
  | None => Raise (AttributeError "colorMax")
  | Some t =>
      if oneSideWon t then Ok (Respond "resign", self)
      else engine_move self arg
  end.
End commands.

(** The connection [__init__] builds around a board. *)
Definition newConnection (b : Board) : GtpConnection := mkGtp b None.

(** ** Example games *)

(** Black on columns 1, 2, 4 and 5 of row 1: two runs of two stones around
    the free cell [(1, 3)]. *)
Definition gapped : Tracker :=
  foldl (λ t coord, recordPlacement t "b" coord) clearedTracker
        [(1, 1); (1, 2); (1, 4); (1, 5)].

(** The same game after Black also took [(1, 3)]. *)
Definition bridged : Tracker := recordPlacement gapped "b" (1, 3).

(** ** Command sequences *)

Inductive Command :=
  | ClearBoard
  | Boardsize (arg : string)
  | Play (args0 args1 : string).

(** The connection after one command; a command that raises leaves it as
    it was. *)
Definition step (MAXSIZE : Z) (self : GtpConnection) (cmd : Command)
    : GtpConnection :=
  match cmd with
  | ClearBoard =>
      match clear_board_cmd MAXSIZE self with
      | Ok (_, self') => self'
      | Raise _ => self
      end
  | Boardsize arg =>
      match boardsize_cmd MAXSIZE self arg with
      | Ok (_, self') => self'
      | Raise _ => self
      end
  | Play args0 args1 => (play_cmd MAXSIZE self args0 args1).2
  end.

Definition run (MAXSIZE : Z) (self : GtpConnection) (cmds : list Command)
    : GtpConnection :=
  foldl (step MAXSIZE) self cmds.

(** The answers by which [play_cmd] rejects a move: the cell is occupied,
    the game is over, or [move_to_coord] raised its [ValueError]. *)
Definition rejected (r : Response) : Prop :=
  (∃ board_move, r = Respond ("Illegal Move: " +:+ board_move)) ∨
  r = Respond "One side is win game over!" ∨
  (∃ msg, r = RespondException (ValueError msg)).

(** A 5 by 5 game that ends with a full board.  The players alternate;
    rows 2 to 5 are filled without any run of five, and Black's thirteenth
    stone completes row 1 on the last free cell.
    <<
      5  O O X O X
      4  O X O O X
      3  X O O X O
      2  O X X O O
      1  X X X X X
         a b c d e
    >> *)
Definition fullBoardGame : list Command :=
  [ClearBoard;
   Play "b" "b2"; Play "w" "a2"; Play "b" "c2"; Play "w" "d2";
   Play "b" "a3"; Play "w" "e2"; Play "b" "d3"; Play "w" "b3";
   Play "b" "b4"; Play "w" "c3"; Play "b" "e4"; Play "w" "e3";
   Play "b" "c5"; Play "w" "a4"; Play "b" "e5"; Play "w" "c4";
   Play "b" "a1"; Play "w" "d4"; Play "b" "b1"; Play "w" "a5";
   Play "b" "c1"; Play "w" "b5"; Play "b" "d1"; Play "w" "d5";
   Play "b" "e1"].

Definition fullBoard : GtpConnection :=
  run 25 (newConnection (mkBoard 5 ∅ BLACK)) fullBoardGame.

(** One stone, then a board-size change. *)
Definition resizedGame : list Command :=
  [ClearBoard; Play "b" "a1"; Boardsize "5"].

Definition resized : GtpConnection :=
  run 25 (newConnection (mkBoard 7 ∅ BLACK)) resizedGame.

(** A 3 by 3 game with one black stone on [b2]. *)
Definition oneStone : GtpConnection :=
  run 25 (newConnection (mkBoard 3 ∅ BLACK)) [ClearBoard; Play "b" "b2"].

Definition otherPlayer (p : Player) : Player :=
  match p with Black => White | White => Black end.

(** The answer of [gogui_rules_final_result_cmd] for a win of [p]. *)
Definition winMessage (p : Player) : string :=
  match p with White => "white win" | Black => "black win" end.

(** A 5 by 5 game in which Black has just completed row 1, with cells
    still free. *)
Definition fiveInRow : GtpConnection :=
  run 25 (newConnection (mkBoard 5 ∅ BLACK))
      [ClearBoard;
       Play "b" "a1"; Play "w" "a2"; Play "b" "b1"; Play "w" "b2";
       Play "b" "c1"; Play "w" "c2"; Play "b" "d1"; Play "w" "d2";
       Play "b" "e1"].

(** The largest board, just cleared. *)
Definition largestBoard : GtpConnection :=
  run 25 (newConnection (mkBoard 25 ∅ BLACK)) [ClearBoard].

(** Board and tracker agree: every recorded stone is on the board. *)
Definition synced (self : GtpConnection) (t : Tracker) : Prop :=
  ∀ p row col, is_Some (dictOf p t !! (row, col)) →
    is_Some (stones (board self) !! coord_to_point row col (bsize (board self))).

(** A connection in the middle of a game: the tracker holds a state of one
    game and agrees with the board. *)
Definition in_game (self : GtpConnection) : Prop :=
  ∃ t, tracker self = Some t ∧ reachable t ∧ synced self t.

(** At most one player has reached five. *)
Definition one_winner (self : GtpConnection) : Prop :=
  ∀ t, tracker self = Some t → colorMax_w t < 5 ∨ colorMax_b t < 5.
(** ** Basic facts *)

Lemma getKey_setKey key v e : getKey key (setKey key v e) = v.
Proof. by destruct key. Qed.

Lemma getKey_setKey_ne key key' v e :
  key ≠ key' → getKey key' (setKey key v e) = getKey key' e.
Proof. by destruct key, key'. Qed.

Lemma setKey_setKey key v w e : setKey key v (setKey key w e) = setKey key v e.
Proof. by destruct key. Qed.

Lemma firstNighbour_line key c n : firstNighbour key c n = line key c (- (1 + n)).
Proof. destruct key, c; simpl; f_equal; lia. Qed.

Lemma secondNighbour_line key c n : secondNighbour key c n = line key c (1 + n).
Proof. destruct key, c; simpl; f_equal; lia. Qed.

Lemma line_0 key c : line key c 0 = c.
Proof. destruct key, c; simpl; f_equal; lia. Qed.

Lemma line_line key c i j : line key (line key c i) j = line key c (i + j).
Proof. destruct key, c; simpl; f_equal; lia. Qed.

Lemma line_inj key c i j : line key c i = line key c j → i = j.
Proof. destruct key, c; simpl; intros [= ]; lia. Qed.

Lemma line_start key s c i : line key s i = c → s = line key c (- i).
Proof.
  intros <-. rewrite line_line. replace (i + - i) with 0 by lia.
  by rewrite line_0.
Qed.

#[global] Instance firstNighbour_inj key c : Inj (=) (=) (firstNighbour key c).
Proof.
  intros i j. rewrite !firstNighbour_line. intros H%line_inj. lia.
Qed.

#[global] Instance secondNighbour_inj key c : Inj (=) (=) (secondNighbour key c).
Proof.
  intros i j. rewrite !secondNighbour_line. intros H%line_inj. lia.
Qed.

Lemma firstNighbour_ne key c i : 0 ≤ i → firstNighbour key c i ≠ c.
Proof.
  rewrite firstNighbour_line. intros Hi H.
  rewrite <- (line_0 key c) in H at 2. apply line_inj in H. lia.
Qed.

Lemma secondNighbour_ne key c i : 0 ≤ i → secondNighbour key c i ≠ c.
Proof.
  rewrite secondNighbour_line. intros Hi H.
  rewrite <- (line_0 key c) in H at 2. apply line_inj in H. lia.
Qed.

Lemma first_second_ne key c i j :
  0 ≤ i → 0 ≤ j → firstNighbour key c i ≠ secondNighbour key c j.
Proof.
  rewrite firstNighbour_line, secondNighbour_line. intros Hi Hj H%line_inj. lia.
Qed.

(** ** The propagation loop *)

Section walk.
Context (nb : Z → Coord) (key : Key) (coord : Coord).
Context `{!Inj (=) (=) nb}.
Hypothesis nb_coord : ∀ i, 0 ≤ i → nb i ≠ coord.

(** A ray of keys is no longer than the dictionary is large: the cells
    are pairwise distinct keys. *)
Lemma ray_present_bound (d : gmap Coord Entry) n :
  0 ≤ n → (∀ i, 0 ≤ i < n → is_Some (d !! nb i)) → (Z.to_nat n ≤ size d)%nat.
Proof.
  intros Hn Hp.
  set (l := nb <$> seqZ 0 n).
  assert (NoDup l) as Hnd by (apply (NoDup_fmap_2 nb), NoDup_seqZ).
  assert (list_to_set l ⊆ dom d) as Hsub.
  { intros x [i [-> Hi%elem_of_seqZ]]%elem_of_list_to_set%list_elem_of_fmap.
    apply elem_of_dom, Hp. lia. }
  apply subseteq_size in Hsub.
  rewrite size_list_to_set, size_dom in Hsub by done.
  unfold l in Hsub. rewrite length_fmap, length_seqZ in Hsub. done.
Qed.

Lemma ray_extent_bound (d : gmap Coord Entry) n :
  ray_extent d nb n → (Z.to_nat n ≤ size d)%nat.
Proof. intros (? & ? & ?). by apply ray_present_bound. Qed.

(** Every ray ends: the dictionary is finite. *)
Lemma ray_extent_exists (d : gmap Coord Entry) : ∃ n, ray_extent d nb n.
Proof.
  assert (∀ k : nat, (∃ n, ray_extent d nb n) ∨
            (∀ i, 0 ≤ i < Z.of_nat k → is_Some (d !! nb i))) as H.
  { induction k as [|k [?|IH]]; [right; intros; lia|by left|].
    destruct (d !! nb (Z.of_nat k)) as [e|] eqn:E.
    - right. intros i Hi. destruct (decide (i = Z.of_nat k)) as [->|].
      + by rewrite E. + apply IH. lia.
    - left. exists (Z.of_nat k). split; [lia|done]. }
  destruct (H (S (size d))) as [?|Hall]; [done|].
  apply ray_present_bound in Hall; lia.
Qed.

Lemma ray_extent_unique (d : gmap Coord Entry) n n' :
  ray_extent d nb n → ray_extent d nb n' → n = n'.
Proof.
  intros (Hn & Hp & He) (Hn' & Hp' & He').
  destruct (Z.lt_trichotomy n n') as [Hlt|[?|Hlt]]; [|done|].
  - destruct (Hp' n) as [? Hs]; [lia|congruence].
  - destruct (Hp n') as [? Hs]; [lia|congruence].
Qed.

(** What the loop computes: the cells of the ray from the current one to
    the end get the placed cell's length; nothing else changes. *)
Lemma walk_lookup fuel : ∀ j (d : gmap Coord Entry) n,
  ray_extent d nb n → 0 ≤ j ≤ n → (Z.to_nat (n - j) ≤ fuel)%nat →
  ∀ x, walk fuel nb key coord (nb j) (j + 1) d !! x
       = if decide (x ∈ nb <$> seqZ j (n - j))
         then setKey key (getKey key (d !!! coord)) <$> d !! x
         else d !! x.
Proof.
  induction fuel as [|fuel IH]; intros j d n (Hn & Hp & He) Hj Hf x.
  - assert (j = n) as -> by lia. simpl.
    replace (n - n) with 0 by lia. by rewrite decide_False by set_solver.
  - simpl. destruct (decide (j = n)) as [->|Hne].
    { rewrite He. replace (n - n) with 0 by lia.
      by rewrite decide_False by set_solver. }
    destruct (Hp j) as [e Hje]; [lia|]. rewrite Hje.
    set (d' := <[nb j:=_]> d).
    assert (d' !!! coord = d !!! coord) as Hc.
    { unfold d'. rewrite lookup_total_insert_ne; [done|]. apply nb_coord; lia. }
    assert (ray_extent d' nb n) as Hext.
    { split; [done|]. split.
      - intros i Hi. unfold d'. rewrite lookup_insert.
        case_decide; [done|]. by apply Hp.
      - unfold d'. rewrite lookup_insert_ne; [done|]. intros ?%(inj nb). lia. }
    rewrite (IH (j + 1) d' n Hext) by lia. rewrite Hc.
    replace (n - j) with (Z.succ (n - (j + 1))) by lia.
    rewrite (seqZ_cons j) by lia.
    replace (Z.pred (Z.succ (n - (j + 1)))) with (n - (j + 1)) by lia.
    replace (Z.succ j) with (j + 1) by lia. rewrite fmap_cons.
    destruct (decide (x = nb j)) as [->|Hx].
    + rewrite decide_False.
      * rewrite (decide_True (P := _ ∈ _ :: _)) by constructor.
        unfold d'. by rewrite lookup_insert_eq, Hje.
      * intros [i [Hi%(inj nb) Hr%elem_of_seqZ]]%list_elem_of_fmap. lia.
    + unfold d'. rewrite lookup_insert_ne by done.
      destruct (decide (x ∈ nb <$> seqZ (j + 1) (n - (j + 1)))).
      * by rewrite decide_True by (by constructor).
      * rewrite decide_False; [done|]. by intros [?|?]%elem_of_cons.
Qed.

(** The bound used by [propagate] is never what ends the loop. *)
Lemma walk_reaches_end (d : gmap Coord Entry) n :
  ray_extent d nb n →
  ∀ extra, walk (size d + extra) nb key coord (nb 0) 1 d
           = propagate nb key coord d.
Proof.
  intros Hext extra. apply map_eq. intros x. unfold propagate.
  pose proof (ray_extent_bound d n Hext).
  pose proof Hext as (? & _).
  rewrite !(walk_lookup _ 0 d n) by (done || lia). done.
Qed.

Lemma propagate_lookup (d : gmap Coord Entry) n :
  ray_extent d nb n →
  ∀ x, propagate nb key coord d !! x
       = if decide (x ∈ nb <$> seqZ 0 n)
         then setKey key (getKey key (d !!! coord)) <$> d !! x
         else d !! x.
Proof.
  intros Hext x. unfold propagate.
  pose proof (ray_extent_bound d n Hext). pose proof Hext as (? & _).
  rewrite (walk_lookup _ 0 d n) by (done || lia).
  by replace (n - 0) with n by lia.
Qed.
End walk.

Lemma setKey_getKey key e : setKey key (getKey key e) e = e.
Proof. by destruct key, e. Qed.

(** The extent of a ray only depends on the key set. *)
Lemma ray_extent_dom (d d' : gmap Coord Entry) nb n :
  (∀ x, is_Some (d' !! x) ↔ is_Some (d !! x)) →
  ray_extent d nb n → ray_extent d' nb n.
Proof.
  intros Hdom (Hn & Hp & He). split; [done|]. split.
  - intros i Hi. by apply Hdom, Hp.
  - apply eq_None_not_Some. rewrite Hdom, He. by intros [? [=]].
Qed.

Lemma is_Some_cond_fmap (P : Prop) `{!Decision P} (f : Entry → Entry)
    (o : option Entry) :
  is_Some (if decide P then f <$> o else o) ↔ is_Some o.
Proof. case_decide; [apply fmap_is_Some|done]. Qed.

(** ** One side of a direction *)

Section mergeSide.
Context (nb : Z → Coord) (key : Key) (coord : Coord).
Context `{!Inj (=) (=) nb}.
Hypothesis nb_coord : ∀ i, 0 ≤ i → nb i ≠ coord.

Lemma mergeSide_lookup (d : gmap Coord Entry) e n :
  d !! coord = Some e → ray_extent d nb n →
  ∀ x, mergeSide nb key coord d !! x
       = if decide (x = coord ∨ x ∈ nb <$> seqZ 0 n)
         then setKey key (getKey key e +
                (if decide (0 < n) then getKey key (d !!! nb 0) else 0))
                <$> d !! x
         else d !! x.
Proof.
  intros Hc Hext x. pose proof Hext as (Hn & Hp & He). unfold mergeSide.
  destruct (decide (0 < n)) as [Hpos|Hz].
  - destruct (Hp 0) as [e0 He0]; [lia|]. rewrite He0.
    set (V := getKey key e + getKey key (d !!! nb 0)).
    assert (addFrom key coord (nb 0) d = <[coord := setKey key V e]> d) as ->.
    { unfold addFrom. by rewrite (lookup_total_correct _ _ _ Hc). }
    set (d1 := <[coord := setKey key V e]> d).
    assert (ray_extent d1 nb n) as Hext1.
    { apply (ray_extent_dom d); [|done]. intros y. unfold d1.
      rewrite lookup_insert. case_decide; subst; by rewrite ?Hc. }
    rewrite (propagate_lookup nb key coord nb_coord d1 n Hext1).
    assert (d1 !!! coord = setKey key V e) as ->
      by (unfold d1; apply lookup_total_insert_eq).
    rewrite getKey_setKey.
    destruct (decide (x ∈ nb <$> seqZ 0 n)) as [Hx|Hx].
    + rewrite decide_True by (by right).
      unfold d1. rewrite lookup_insert_ne; [done|].
      apply list_elem_of_fmap in Hx as [i [-> Hi%elem_of_seqZ]].
      apply not_eq_sym, nb_coord. lia.
    + destruct (decide (x = coord)) as [->|Hxc].
      * rewrite decide_True by (by left).
        unfold d1. by rewrite lookup_insert_eq, Hc.
      * rewrite decide_False by (by intros [?|?]).
        unfold d1. by rewrite lookup_insert_ne.
  - assert (n = 0) as -> by lia. rewrite He. rewrite Z.add_0_r.
    case_decide as Hx; [|done].
    destruct Hx as [->|Hx]; [|set_solver].
    by rewrite Hc; simpl; rewrite setKey_getKey.
Qed.
End mergeSide.

(** ** One direction: both sides merged and propagated *)

Lemma updateKey_lookup (key : Key) (c : Coord) (d : gmap Coord Entry) e a b :
  d !! c = Some e →
  ray_extent d (firstNighbour key c) a →
  ray_extent d (secondNighbour key c) b →
  ∀ x, updateKey key c d !! x
       = if decide (x = c ∨ x ∈ firstNighbour key c <$> seqZ 0 a
                          ∨ x ∈ secondNighbour key c <$> seqZ 0 b)
         then setKey key
                (getKey key e
                 + (if decide (0 < a)
                    then getKey key (d !!! firstNighbour key c 0) else 0)
                 + (if decide (0 < b)
                    then getKey key (d !!! secondNighbour key c 0) else 0))
                <$> d !! x
         else d !! x.
Proof.
  intros Hc Ha Hb x. unfold updateKey.
  set (fa := if decide (0 < a) then _ else 0).
  set (fb := if decide (0 < b) then _ else 0).
  set (A := firstNighbour key c <$> seqZ 0 a).
  set (B := secondNighbour key c <$> seqZ 0 b).
  assert (c ∉ A) as HcA.
  { intros [i [E Hi%elem_of_seqZ]]%list_elem_of_fmap.
    symmetry in E. apply firstNighbour_ne in E; [done|lia]. }
  assert (c ∉ B) as HcB.
  { intros [i [E Hi%elem_of_seqZ]]%list_elem_of_fmap.
    symmetry in E. apply secondNighbour_ne in E; [done|lia]. }
  assert (∀ y, y ∈ A → y ∉ B) as HAB.
  { intros y [i [-> Hi%elem_of_seqZ]]%list_elem_of_fmap
             [j [E Hj%elem_of_seqZ]]%list_elem_of_fmap.
    apply first_second_ne in E; [done|lia|lia]. }
  (* first side *)
  set (d1 := mergeSide (firstNighbour key c) key c d).
  assert (∀ y, d1 !! y = if decide (y = c ∨ y ∈ A)
            then setKey key (getKey key e + fa) <$> d !! y else d !! y) as H1.
  { intros y. apply (mergeSide_lookup _ key c); [|done|done].
    intros i Hi. by apply firstNighbour_ne. }
  assert (d1 !! c = Some (setKey key (getKey key e + fa) e)) as Hc1.
  { rewrite H1, decide_True by (by left). by rewrite Hc. }
  assert (∀ y, is_Some (d1 !! y) ↔ is_Some (d !! y)) as Hdom1.
  { intros y. rewrite H1. apply is_Some_cond_fmap. }
  (* second side *)
  set (d2 := mergeSide (secondNighbour key c) key c d1).
  pose proof (ray_extent_dom d d1 _ b Hdom1 Hb) as Hb1.
  assert ((if decide (0 < b)
           then getKey key (d1 !!! secondNighbour key c 0) else 0) = fb) as Hfb.
  { unfold fb. case_decide as Hpos; [|done]. f_equal.
    rewrite !lookup_total_alt, H1. rewrite decide_False; [done|].
    intros [E|HA].
    - apply secondNighbour_ne in E; [done|lia].
    - apply HAB in HA. apply HA, list_elem_of_fmap.
      exists 0. split; [done|]. apply elem_of_seqZ. lia. }
  assert (∀ y, d2 !! y = if decide (y = c ∨ y ∈ B)
            then setKey key (getKey key e + fa + fb) <$> d1 !! y
            else d1 !! y) as H2.
  { intros y. unfold d2.
    rewrite (mergeSide_lookup _ key c) with (e := setKey key (getKey key e + fa) e)
                                            (n := b); try done.
    - by rewrite getKey_setKey, Hfb.
    - intros i Hi. by apply secondNighbour_ne. }
  assert (d2 !! c = Some (setKey key (getKey key e + fa + fb) e)) as Hc2.
  { rewrite H2, decide_True by (by left). rewrite Hc1. simpl.
    by rewrite setKey_setKey. }
  assert (∀ y, is_Some (d2 !! y) ↔ is_Some (d !! y)) as Hdom2.
  { intros y. rewrite H2, is_Some_cond_fmap. apply Hdom1. }
  (* first side again *)
  pose proof (ray_extent_dom d d2 _ a Hdom2 Ha) as Ha2.
  rewrite (propagate_lookup _ key c) with (n := a); [|by apply firstNighbour_ne|done].
  rewrite (lookup_total_correct _ _ _ Hc2), getKey_setKey.
  fold A. rewrite H2, H1.
  destruct (decide (x = c)) as [->|Hxc].
  - rewrite (decide_False (P := c ∈ A)) by done.
    rewrite !decide_True by (by left). rewrite Hc. simpl.
    by rewrite setKey_setKey.
  - destruct (decide (x ∈ A)) as [HA|HA].
    + rewrite (decide_False (P := _ ∨ x ∈ B)) by (intros [?|?]; [done|by eapply HAB]).
      rewrite !decide_True by auto. destruct (d !! x); simpl; [|done].
      by rewrite setKey_setKey.
    + destruct (decide (x ∈ B)) as [HB|HB].
      * rewrite (decide_True (P := _ ∨ x ∈ B)) by auto.
        rewrite (decide_False (P := _ ∨ x ∈ A)) by (by intros [?|?]).
        by rewrite decide_True by auto.
      * by rewrite !decide_False by tauto.
Qed.

(** ** Field views

    The four directions are independent: [updateKey key] reads and writes
    the [key] field only, and never changes the key set. *)

Lemma updateKey_dom (key : Key) (c : Coord) (d : gmap Coord Entry) x :
  is_Some (d !! c) → is_Some (updateKey key c d !! x) ↔ is_Some (d !! x).
Proof.
  intros [e Hc].
  destruct (ray_extent_exists (firstNighbour key c) d) as [a Ha].
  destruct (ray_extent_exists (secondNighbour key c) d) as [b Hb].
  rewrite (updateKey_lookup key c d e a b) by done. apply is_Some_cond_fmap.
Qed.

Lemma updateKey_field_ne (key key' : Key) (c : Coord) (d : gmap Coord Entry) x :
  is_Some (d !! c) → key ≠ key' →
  getKey key' <$> updateKey key c d !! x = getKey key' <$> d !! x.
Proof.
  intros [e Hc] Hne.
  destruct (ray_extent_exists (firstNighbour key c) d) as [a Ha].
  destruct (ray_extent_exists (secondNighbour key c) d) as [b Hb].
  rewrite (updateKey_lookup key c d e a b) by done.
  case_decide; [|done]. destruct (d !! x); simpl; [|done].
  by rewrite getKey_setKey_ne.
Qed.

Lemma on_segment key c a b x :
  0 ≤ a → 0 ≤ b →
  (x = c ∨ x ∈ firstNighbour key c <$> seqZ 0 a
         ∨ x ∈ secondNighbour key c <$> seqZ 0 b)
  ↔ ∃ t, - a ≤ t ≤ b ∧ x = line key c t.
Proof.
  intros Ha Hb. split.
  - intros [->|[[i [-> Hi%elem_of_seqZ]]%list_elem_of_fmap
               |[i [-> Hi%elem_of_seqZ]]%list_elem_of_fmap]].
    + exists 0. by rewrite line_0; split; [lia|].
    + exists (- (1 + i)). by rewrite firstNighbour_line; split; [lia|].
    + exists (1 + i). by rewrite secondNighbour_line; split; [lia|].
  - intros [t [Ht ->]].
    destruct (Z.lt_trichotomy t 0) as [Hlt|[->|Hgt]].
    + right; left. apply list_elem_of_fmap. exists (- t - 1).
      rewrite firstNighbour_line, elem_of_seqZ. split; [f_equal; lia|lia].
    + left. apply line_0.
    + right; right. apply list_elem_of_fmap. exists (t - 1).
      rewrite secondNighbour_line, elem_of_seqZ. split; [f_equal; lia|lia].
Qed.

(** The [key] field after [updateKey key], for a freshly inserted cell whose
    two neighbouring runs store their own sizes. *)
Section updateKey_field.
Context (key : Key) (c : Coord) (d : gmap Coord Entry) (a b : Z).
Hypothesis Hc : getKey key <$> d !! c = Some 1.
Hypothesis Ha : ray_extent d (firstNighbour key c) a.
Hypothesis Hb : ray_extent d (secondNighbour key c) b.
Hypothesis Hva : 0 < a → getKey key <$> d !! firstNighbour key c 0 = Some a.
Hypothesis Hvb : 0 < b → getKey key <$> d !! secondNighbour key c 0 = Some b.

Lemma updateKey_field_in t :
  - a ≤ t ≤ b →
  getKey key <$> updateKey key c d !! line key c t = Some (a + b + 1).
Proof using All.
  intros Ht. destruct (d !! c) as [e|] eqn:He; [|done].
  injection Hc as Hc.
  pose proof Ha as (Ha0 & Hap & _). pose proof Hb as (Hb0 & Hbp & _).
  rewrite (updateKey_lookup key c d e a b) by done.
  rewrite decide_True by (apply on_segment; eauto).
  assert (is_Some (d !! line key c t)) as [e' ->].
  { destruct (Z.lt_trichotomy t 0) as [Hlt|[->|Hgt]].
    - replace t with (- (1 + (- t - 1))) by lia.
      rewrite <- firstNighbour_line. apply Hap. lia.
    - rewrite line_0. by rewrite He.
    - replace t with (1 + (t - 1)) by lia.
      rewrite <- secondNighbour_line. apply Hbp. lia. }
  simpl. rewrite getKey_setKey. f_equal.
  assert ((if decide (0 < a)
           then getKey key (d !!! firstNighbour key c 0) else 0) = a) as ->.
  { case_decide as Hpos; [|lia]. specialize (Hva Hpos).
    rewrite lookup_total_alt.
    destruct (d !! firstNighbour key c 0); by simplify_eq/=. }
  assert ((if decide (0 < b)
           then getKey key (d !!! secondNighbour key c 0) else 0) = b) as ->.
  { case_decide as Hpos; [|lia]. specialize (Hvb Hpos).
    rewrite lookup_total_alt.
    destruct (d !! secondNighbour key c 0); by simplify_eq/=. }
  lia.
Qed.

Lemma updateKey_field_out x :
  (∀ t, - a ≤ t ≤ b → x ≠ line key c t) →
  getKey key <$> updateKey key c d !! x = getKey key <$> d !! x.
Proof using Hc Ha Hb.
  intros Hx. destruct (d !! c) as [e|] eqn:He; [|done].
  pose proof Ha as (Ha0 & _). pose proof Hb as (Hb0 & _).
  rewrite (updateKey_lookup key c d e a b) by done.
  rewrite decide_False; [done|].
  intros [t [Ht ->]]%on_segment; [|done..]. by eapply Hx.
Qed.
End updateKey_field.

(** ** The loop over the four keys *)

Lemma foldl_updateKey_dom (c : Coord) l : ∀ (d : gmap Coord Entry) x,
  is_Some (d !! c) →
  is_Some (foldl (λ d key, updateKey key c d) d l !! x) ↔ is_Some (d !! x).
Proof.
  induction l as [|k l IH]; intros d x Hc; simpl; [done|].
  rewrite IH by (by apply updateKey_dom). by apply updateKey_dom.
Qed.

Lemma foldl_updateKey_field_notin (key : Key) (c : Coord) l :
  ∀ (d : gmap Coord Entry) x,
  is_Some (d !! c) → key ∉ l →
  getKey key <$> foldl (λ d key, updateKey key c d) d l !! x
  = getKey key <$> d !! x.
Proof.
  induction l as [|k l IH]; intros d x Hc Hnin; simpl; [done|].
  apply not_elem_of_cons in Hnin as [Hne Hnin].
  rewrite IH by (done || by apply updateKey_dom).
  by apply updateKey_field_ne.
Qed.

Lemma keys_split key :
  ∃ l1 l2, keys = l1 ++ key :: l2 ∧ (key ∉ l1) ∧ (key ∉ l2).
Proof.
  destruct key.
  - exists [], [LeftRight; Backslash; Forwardslash].
    repeat split; by apply (bool_decide_unpack _).
  - exists [UpDown], [Backslash; Forwardslash].
    repeat split; by apply (bool_decide_unpack _).
  - exists [UpDown; LeftRight], [Forwardslash].
    repeat split; by apply (bool_decide_unpack _).
  - exists [UpDown; LeftRight; Backslash], [].
    repeat split; by apply (bool_decide_unpack _).
Qed.

Lemma setdefault_fresh (c : Coord) (d : gmap Coord Entry) :
  d !! c = None → setdefault c d = <[c := mkEntry 1 1 1 1]> d.
Proof. intros H. unfold setdefault. by rewrite H. Qed.

Lemma updateDict_dom (c : Coord) (d : gmap Coord Entry) x :
  is_Some (updateDict c d !! x) ↔ x = c ∨ is_Some (d !! x).
Proof.
  unfold updateDict.
  assert (∀ y, is_Some (setdefault c d !! y) ↔ y = c ∨ is_Some (d !! y)) as H.
  { intros y. unfold setdefault. destruct (d !! c) as [e|] eqn:E.
    - split; [auto|]. intros [->|?]; [by rewrite E|done].
    - rewrite lookup_insert. case_decide; subst.
      + split; [auto|done].
      + split; [auto|]. by intros [->|?]. }
  rewrite foldl_updateKey_dom; [done|]. apply H. by left.
Qed.

Section updateDict_field.
Context (key : Key) (c : Coord) (d : gmap Coord Entry) (a b : Z).
Hypothesis Hc : d !! c = None.
Hypothesis Ha : ray_extent d (firstNighbour key c) a.
Hypothesis Hb : ray_extent d (secondNighbour key c) b.
Hypothesis Hva : 0 < a → getKey key <$> d !! firstNighbour key c 0 = Some a.
Hypothesis Hvb : 0 < b → getKey key <$> d !! secondNighbour key c 0 = Some b.

Let d0 : gmap Coord Entry := <[c := mkEntry 1 1 1 1]> d.

Local Lemma d0_extent nb n :
  (∀ i, 0 ≤ i → nb i ≠ c) → ray_extent d nb n → ray_extent d0 nb n.
Proof using Type.
  intros Hnb (Hn & Hp & He). split; [done|]. split.
  - intros i Hi. unfold d0. rewrite lookup_insert_ne by (apply not_eq_sym, Hnb; lia).
    by apply Hp.
  - unfold d0. by rewrite lookup_insert_ne by (apply not_eq_sym, Hnb; lia).
Qed.

Local Lemma updateDict_stage :
  ∃ d1 l2,
    (∀ x, is_Some (d1 !! x) ↔ is_Some (d0 !! x)) ∧
    (∀ x, getKey key <$> d1 !! x = getKey key <$> d0 !! x) ∧
    (key ∉ l2) ∧
    updateDict c d = foldl (λ d key, updateKey key c d) (updateKey key c d1) l2.
Proof using Hc.
  destruct (keys_split key) as (l1 & l2 & Hk & Hn1 & Hn2).
  assert (is_Some (d0 !! c)) as Hc0 by (unfold d0; by rewrite lookup_insert_eq).
  exists (foldl (λ d key, updateKey key c d) d0 l1), l2.
  split; [|split; [|split; [done|]]].
  - intros x. by apply foldl_updateKey_dom.
  - intros x. by apply foldl_updateKey_field_notin.
  - unfold updateDict. rewrite setdefault_fresh by done. fold d0.
    by rewrite Hk, foldl_app.
Qed.

Local Lemma stage_hyps d1 :
  (∀ x, is_Some (d1 !! x) ↔ is_Some (d0 !! x)) →
  (∀ x, getKey key <$> d1 !! x = getKey key <$> d0 !! x) →
  getKey key <$> d1 !! c = Some 1 ∧
  ray_extent d1 (firstNighbour key c) a ∧
  ray_extent d1 (secondNighbour key c) b ∧
  (0 < a → getKey key <$> d1 !! firstNighbour key c 0 = Some a) ∧
  (0 < b → getKey key <$> d1 !! secondNighbour key c 0 = Some b).
Proof using All.
  intros Hdom Hfld. split; [|split; [|split; [|split]]].
  - rewrite Hfld. unfold d0. rewrite lookup_insert_eq. by destruct key.
  - apply (ray_extent_dom d0); [done|].
    apply d0_extent; [|done]. intros; by apply firstNighbour_ne.
  - apply (ray_extent_dom d0); [done|].
    apply d0_extent; [|done]. intros; by apply secondNighbour_ne.
  - intros Hpos. rewrite Hfld. unfold d0.
    rewrite lookup_insert_ne by (by apply not_eq_sym, firstNighbour_ne). auto.
  - intros Hpos. rewrite Hfld. unfold d0.
    rewrite lookup_insert_ne by (by apply not_eq_sym, secondNighbour_ne). auto.
Qed.

(** The merged segment stores the merged length ... *)
Lemma updateDict_field_in t :
  - a ≤ t ≤ b →
  getKey key <$> updateDict c d !! line key c t = Some (a + b + 1).
Proof using All.
  intros Ht. destruct updateDict_stage as (d1 & l2 & Hdom & Hfld & Hn2 & ->).
  destruct (stage_hyps d1 Hdom Hfld) as (H1 & H2 & H3 & H4 & H5).
  rewrite foldl_updateKey_field_notin; [|apply updateKey_dom|done].
  - by apply updateKey_field_in.
  - apply Hdom. unfold d0. by rewrite lookup_insert_eq.
  - apply Hdom. unfold d0. by rewrite lookup_insert_eq.
Qed.

(** ... and every other cell keeps its [key] field. *)
Lemma updateDict_field_out x :
  (∀ t, - a ≤ t ≤ b → x ≠ line key c t) →
  getKey key <$> updateDict c d !! x = getKey key <$> d !! x.
Proof using All.
  intros Hx. destruct updateDict_stage as (d1 & l2 & Hdom & Hfld & Hn2 & ->).
  destruct (stage_hyps d1 Hdom Hfld) as (H1 & H2 & H3 & H4 & H5).
  rewrite foldl_updateKey_field_notin; [|apply updateKey_dom|done].
  - rewrite (updateKey_field_out key c d1 a b) by done.
    rewrite Hfld. unfold d0. rewrite lookup_insert_ne; [done|].
    intros ->. apply (Hx 0); [|by rewrite line_0].
    destruct Ha, Hb. lia.
  - apply Hdom. unfold d0. by rewrite lookup_insert_eq.
  - apply Hdom. unfold d0. by rewrite lookup_insert_eq.
Qed.
End updateDict_field.

(** ** Run uniformity is preserved by a placement on a free cell *)

Lemma fmap_Some_is_Some {A B} (f : A → B) (o : option A) y :
  f <$> o = Some y → is_Some o.
Proof. destruct o; [eauto|done]. Qed.

Lemma neighbour_run_first (key : Key) (c : Coord) (d : gmap Coord Entry) a :
  run_uniform d → d !! c = None →
  ray_extent d (firstNighbour key c) a →
  0 < a → getKey key <$> d !! firstNighbour key c 0 = Some a.
Proof.
  intros Hinv Hc (Ha0 & Hp & He) Hpos.
  assert (maximal_run d key (line key c (- a)) a) as Hrun.
  { split; [done|]. split; [|split].
    - intros i Hi. rewrite line_line.
      replace (- a + i) with (- (1 + (a - i - 1))) by lia.
      rewrite <- firstNighbour_line. apply Hp. lia.
    - rewrite line_line. replace (- a + -1) with (- (1 + a)) by lia.
      by rewrite <- firstNighbour_line.
    - rewrite line_line. replace (- a + a) with 0 by lia. by rewrite line_0. }
  specialize (Hinv key _ _ Hrun (a - 1)). rewrite line_line in Hinv.
  rewrite firstNighbour_line. replace (- (1 + 0)) with (- a + (a - 1)) by lia.
  apply Hinv. lia.
Qed.

Lemma neighbour_run_second (key : Key) (c : Coord) (d : gmap Coord Entry) b :
  run_uniform d → d !! c = None →
  ray_extent d (secondNighbour key c) b →
  0 < b → getKey key <$> d !! secondNighbour key c 0 = Some b.
Proof.
  intros Hinv Hc (Hb0 & Hp & He) Hpos.
  assert (maximal_run d key (line key c 1) b) as Hrun.
  { split; [done|]. split; [|split].
    - intros i Hi. rewrite line_line, <- secondNighbour_line. by apply Hp.
    - rewrite line_line. replace (1 + -1) with 0 by lia. by rewrite line_0.
    - by rewrite line_line, <- secondNighbour_line. }
  specialize (Hinv key _ _ Hrun 0). rewrite line_line in Hinv.
  rewrite secondNighbour_line. apply Hinv. lia.
Qed.

Lemma updateDict_run_uniform (c : Coord) (d : gmap Coord Entry) :
  d !! c = None → run_uniform d → run_uniform (updateDict c d).
Proof.
  intros Hc Hinv key s n (Hn & Hp & Hl & Hr) i Hi.
  destruct (ray_extent_exists (firstNighbour key c) d) as [a Ha].
  destruct (ray_extent_exists (secondNighbour key c) d) as [b Hb].
  pose proof (neighbour_run_first key c d a Hinv Hc Ha) as Hva.
  pose proof (neighbour_run_second key c d b Hinv Hc Hb) as Hvb.
  pose proof (updateDict_field_in key c d a b Hc Ha Hb Hva Hvb) as Hin.
  pose proof (updateDict_field_out key c d a b Hc Ha Hb Hva Hvb) as Hout.
  pose proof Ha as (Ha0 & Hap & Hae). pose proof Hb as (Hb0 & Hbp & Hbe).
  assert (∀ t, - a ≤ t ≤ b → is_Some (updateDict c d !! line key c t)) as Hseg.
  { intros t Ht. eapply fmap_Some_is_Some, Hin, Ht. }
  assert (∀ x, updateDict c d !! x = None → is_Some (d !! x) → False) as Hmono.
  { intros x Hx Hs. assert (is_Some (updateDict c d !! x)) as [? ?]
      by (apply updateDict_dom; auto). congruence. }
  assert (updateDict c d !! line key c (- (1 + a)) = None) as Hlo.
  { apply eq_None_not_Some. rewrite updateDict_dom, <- firstNighbour_line.
    intros [E|Hs]; [by apply firstNighbour_ne in E|]. rewrite Hae in Hs.
    by destruct Hs. }
  assert (updateDict c d !! line key c (1 + b) = None) as Hhi.
  { apply eq_None_not_Some. rewrite updateDict_dom, <- secondNighbour_line.
    intros [E|Hs]; [by apply secondNighbour_ne in E|]. rewrite Hbe in Hs.
    by destruct Hs. }
  destruct (decide (c ∈ line key s <$> seqZ 0 n)) as [Hmem|Hmem].
  - (* the run goes through the placed cell: it is the merged segment *)
    apply list_elem_of_fmap in Hmem as [j [Hj Hjn%elem_of_seqZ]].
    symmetry in Hj. apply line_start in Hj. subst s.
    assert (j = a) as ->.
    { destruct (Z.lt_trichotomy j a) as [Hlt|[?|Hgt]]; [|done|].
      - rewrite line_line in Hl. destruct (Hseg (- j + -1)) as [? Hs]; [lia|].
        congruence.
      - destruct (Hp (j - a - 1)) as [? Hs]; [lia|]. rewrite line_line in Hs.
        replace (- j + (j - a - 1)) with (- (1 + a)) in Hs by lia. congruence. }
    assert (n = a + b + 1) as ->.
    { destruct (Z.lt_trichotomy n (a + b + 1)) as [Hlt|[?|Hgt]]; [|done|].
      - rewrite line_line in Hr. destruct (Hseg (- a + n)) as [? Hs]; [lia|].
        congruence.
      - destruct (Hp (a + b + 1)) as [? Hs]; [lia|]. rewrite line_line in Hs.
        replace (- a + (a + b + 1)) with (1 + b) in Hs by lia. congruence. }
    rewrite line_line. apply Hin. lia.
  - (* the run avoids the placed cell: it was already a maximal run *)
    assert (∀ j, 0 ≤ j < n → line key s j ≠ c) as Hne.
    { intros j Hj E. apply Hmem, list_elem_of_fmap. exists j.
      split; [done|]. apply elem_of_seqZ. lia. }
    assert (maximal_run d key s n) as Hrun.
    { split; [done|]. split; [|split].
      - intros j Hj. destruct (proj1 (updateDict_dom c d _) (Hp j Hj)); [|done].
        by destruct (Hne j Hj).
      - apply eq_None_not_Some. intros Hs. by apply (Hmono _ Hl).
      - apply eq_None_not_Some. intros Hs. by apply (Hmono _ Hr). }
    rewrite Hout; [by apply Hinv|].
    intros t Ht E. apply line_start in E. rewrite line_line in E. subst s.
    rewrite line_line in Hl, Hr.
    destruct (decide (i - t < 0)).
    { destruct (Hseg (t + - i + -1)) as [? Hs]; [lia|]. congruence. }
    destruct (decide (n ≤ i - t)).
    { destruct (Hseg (t + - i + n)) as [? Hs]; [lia|]. congruence. }
    apply (Hne (i - t)); [lia|]. rewrite line_line.
    replace (t + - i + (i - t)) with 0 by lia. apply line_0.
Qed.

Lemma run_uniform_empty : run_uniform (∅ : gmap Coord Entry).
Proof.
  intros key s n (Hn & Hp & _) i Hi. destruct (Hp i Hi) as [? Hs].
  by rewrite lookup_empty in Hs.
Qed.

(** ** The recorded maximum *)

Lemma max_step (mx value : Z) : (if mx <? value then value else mx) = Z.max mx value.
Proof. destruct (Z.ltb_spec mx value); lia. Qed.

Lemma updateMax_unfold mx e :
  updateMax mx e
  = Z.max (Z.max (Z.max (Z.max mx (upDown e)) (leftRight e)) (backslash e))
          (forwardslash e).
Proof. unfold updateMax, values, keys. simpl. by rewrite !max_step. Qed.

Lemma updateMax_mono mx e : mx ≤ updateMax mx e.
Proof. rewrite updateMax_unfold. lia. Qed.

Lemma updateMax_ge key mx e : getKey key e ≤ updateMax mx e.
Proof. rewrite updateMax_unfold. destruct key; simpl; lia. Qed.

(** ** The tracker *)

Lemma playerOf_insert t color coord p :
  playerOf color = Some p →
  ∃ t', insertKeyIntoDict t color coord = Ok t' ∧
    dictOf p t' = updateDict coord (dictOf p t) ∧
    colorMaxOf p t' = updateMax (colorMaxOf p t) (dictOf p t' !!! coord) ∧
    (∀ q, q ≠ p → dictOf q t' = dictOf q t ∧ colorMaxOf q t' = colorMaxOf q t).
Proof.
  unfold playerOf, insertKeyIntoDict.
  destruct (String.eqb (lower color) "w").
  - intros [= <-]. eexists. split; [done|]. simpl.
    repeat split; by destruct q.
  - destruct (String.eqb (lower color) "b"); [|done].
    intros [= <-]. eexists. split; [done|]. simpl.
    repeat split; by destruct q.
Qed.

Lemma insert_playerOf t color coord t' :
  insertKeyIntoDict t color coord = Ok t' → is_Some (playerOf color).
Proof.
  unfold playerOf, insertKeyIntoDict.
  destruct (String.eqb (lower color) "w"); [eauto|].
  destruct (String.eqb (lower color) "b"); [eauto|done].
Qed.

Lemma cell_empty_dictOf t coord p : cell_empty t coord → dictOf p t !! coord = None.
Proof. intros [? ?]. by destruct p. Qed.

Lemma reachable_run_uniform t : reachable t → ∀ p, run_uniform (dictOf p t).
Proof.
  induction 1 as [|t color coord t' Hr IH Hempty Hins]; intros p.
  - destruct p; apply run_uniform_empty.
  - destruct (insert_playerOf _ _ _ _ Hins) as [q Hq].
    destruct (playerOf_insert t color coord q Hq) as (t'' & Hins' & Hd & _ & Hother).
    assert (t'' = t') as -> by congruence.
    destruct (decide (p = q)) as [->|Hne].
    + rewrite Hd. apply updateDict_run_uniform; [|done].
      by apply cell_empty_dictOf.
    + destruct (Hother p Hne) as [-> _]. apply IH.
Qed.

Lemma reachable_record t color coord :
  reachable t → cell_empty t coord → is_Some (playerOf color) →
  reachable (recordPlacement t color coord).
Proof.
  intros Hr He [p Hp].
  destruct (playerOf_insert t color coord p Hp) as (t' & Hins & _).
  unfold recordPlacement. rewrite Hins. by econstructor.
Qed.

Lemma maximal_run_first_extent (key : Key) (c : Coord) (d : gmap Coord Entry) L :
  maximal_run d key (line key c (- L)) L → ray_extent d (firstNighbour key c) L.
Proof.
  intros (HL & Hp & Hl & _). split; [lia|]. split.
  - intros i Hi. rewrite firstNighbour_line.
    replace (- (1 + i)) with (- L + (L - 1 - i)) by lia.
    rewrite <- line_line. apply Hp. lia.
  - rewrite firstNighbour_line. replace (- (1 + L)) with (- L + -1) by lia.
    by rewrite <- line_line.
Qed.

Lemma maximal_run_second_extent (key : Key) (c : Coord) (d : gmap Coord Entry) L :
  maximal_run d key (line key c 1) L → ray_extent d (secondNighbour key c) L.
Proof.
  intros (HL & Hp & _ & Hr). split; [lia|]. split.
  - intros i Hi. rewrite secondNighbour_line, <- line_line. by apply Hp.
  - by rewrite secondNighbour_line, <- line_line.
Qed.

(** A placement on a free cell between [L1] stones on the first side and
    [L2] on the second, from a tracker whose runs are uniform. *)
Lemma insert_merges t color p (coord : Coord) key L1 L2 :
  (∀ q, run_uniform (dictOf q t)) →
  playerOf color = Some p → dictOf p t !! coord = None →
  ray_extent (dictOf p t) (firstNighbour key coord) L1 →
  ray_extent (dictOf p t) (secondNighbour key coord) L2 →
  ∃ t', insertKeyIntoDict t color coord = Ok t' ∧
    getKey key <$> dictOf p t' !! coord = Some (L1 + L2 + 1) ∧
    L1 + L2 + 1 ≤ colorMaxOf p t'.
Proof.
  intros Hinv Hp Hc H1 H2.
  destruct (playerOf_insert t color coord p Hp) as (t' & Hins & Hd & Hmax & _).
  exists t'. split; [done|].
  assert (getKey key <$> dictOf p t' !! coord = Some (L1 + L2 + 1)) as Hv.
  { rewrite Hd.
    pose proof (updateDict_field_in key coord (dictOf p t) L1 L2 Hc H1 H2
                  (neighbour_run_first key coord _ L1 (Hinv p) Hc H1)
                  (neighbour_run_second key coord _ L2 (Hinv p) Hc H2) 0) as H.
    rewrite line_0 in H. apply H. destruct H1, H2. lia. }
  split; [done|]. rewrite Hmax.
  rewrite lookup_total_alt.
  destruct (dictOf p t' !! coord) as [e|]; [|done]. simpl in *.
  injection Hv as <-. apply updateMax_ge.
Qed.

(** C1.  Merge correctness: in a game's tracker state, placing a stone of
    player [p] on an empty cell that has a run of [L1] of [p]'s stones
    ending next to it on one side along [key] and a run of [L2] starting
    next to it on the other side makes [insertKeyIntoDict] return with the
    placed cell storing [L1 + L2 + 1] for [key] and with [colorMax] for [p]
    at least [L1 + L2 + 1]. *)
Theorem merge_correctness t color p (coord : Coord) key L1 L2 :
  reachable t → playerOf color = Some p → cell_empty t coord →
  maximal_run (dictOf p t) key (line key coord (- L1)) L1 →
  maximal_run (dictOf p t) key (line key coord 1) L2 →
  ∃ t', insertKeyIntoDict t color coord = Ok t' ∧
    getKey key <$> dictOf p t' !! coord = Some (L1 + L2 + 1) ∧
    L1 + L2 + 1 ≤ colorMaxOf p t'.
Proof.
  intros Hr Hp He H1 H2.
  apply insert_merges; try done.
  - by apply reachable_run_uniform.
  - by apply cell_empty_dictOf.
  - by apply maximal_run_first_extent.
  - by apply maximal_run_second_extent.
Qed.

(** C2.  Run uniformity: in every tracker state of a game ([clear_board]
    followed by placements on empty cells recorded by [insertKeyIntoDict]),
    for every player and direction, every cell of a maximal contiguous run
    of that player's stones stores, for that direction, the number of
    stones of the run. *)
Theorem run_uniformity t p key (s : Coord) n i :
  reachable t → maximal_run (dictOf p t) key s n → 0 ≤ i < n →
  getKey key <$> dictOf p t !! line key s i = Some n.
Proof.
  intros Hr Hrun Hi. by apply (reachable_run_uniform t Hr p key s n).
Qed.

Lemma recordPlacement_max_le t color (coord : Coord) p :
  colorMaxOf p t ≤ colorMaxOf p (recordPlacement t color coord).
Proof.
  unfold recordPlacement.
  destruct (insertKeyIntoDict t color coord) as [t'|e] eqn:Hins; [|lia].
  destruct (insert_playerOf _ _ _ _ Hins) as [q Hq].
  destruct (playerOf_insert t color coord q Hq) as (t'' & Hins' & _ & Hmax & Hother).
  assert (t'' = t') as -> by congruence.
  destruct (decide (p = q)) as [->|Hne].
  - rewrite Hmax. apply updateMax_mono.
  - destruct (Hother p Hne) as [_ ->]. lia.
Qed.

(** C5.  Monotonicity: a call of [insertKeyIntoDict], whatever the state,
    the colour and the cell, never lowers the recorded maximum of any
    player; so over any sequence of recorded placements each maximum is
    non-decreasing. *)
Theorem colorMax_monotone t p :
  (∀ color (coord : Coord),
     colorMaxOf p t ≤ colorMaxOf p (recordPlacement t color coord)) ∧
  (∀ placements, colorMaxOf p t ≤ colorMaxOf p (recordAll t placements)).
Proof.
  split; [intros; apply recordPlacement_max_le|].
  intros placements. revert t. unfold recordAll.
  induction placements as [|[color coord] placements IH]; intros t; simpl; [lia|].
  etrans; [apply (recordPlacement_max_le t color coord)|apply IH].
Qed.

(** ** The example games are games *)

Ltac solve_cell_empty := split; vm_compute; reflexivity.

Lemma gapped_reachable : reachable gapped.
Proof.
  unfold gapped. simpl.
  repeat (apply reachable_record; [|solve_cell_empty|by eexists]).
  constructor.
Defined.

Lemma bridged_reachable : reachable bridged.
Proof.
  unfold bridged.
  apply reachable_record; [apply gapped_reachable|solve_cell_empty|by eexists].
Defined.

Lemma gapped_left_run :
  maximal_run (dictOf Black gapped) LeftRight (line LeftRight (1, 3) (- 2)) 2.
Proof.
  split; [lia|]. split; [|split; vm_compute; reflexivity].
  intros i Hi. assert (i = 0 ∨ i = 1) as [-> | ->] by lia; vm_compute; eauto.
Defined.

Lemma gapped_right_run :
  maximal_run (dictOf Black gapped) LeftRight (line LeftRight (1, 3) 1) 2.
Proof.
  split; [lia|]. split; [|split; vm_compute; reflexivity].
  intros i Hi. assert (i = 0 ∨ i = 1) as [-> | ->] by lia; vm_compute; eauto.
Defined.

Lemma bridged_run : maximal_run (dictOf Black bridged) LeftRight (1, 1) 5.
Proof.
  split; [lia|]. split; [|split; vm_compute; reflexivity].
  intros i Hi.
  assert (i = 0 ∨ i = 1 ∨ i = 2 ∨ i = 3 ∨ i = 4) as [-> | [-> | [-> | [-> | ->]]]]
    by lia; vm_compute; eauto.
Defined.

Lemma merge_correctness_witness :
  ∃ t', insertKeyIntoDict gapped "b" (1, 3) = Ok t' ∧
    getKey LeftRight <$> dictOf Black t' !! (1, 3) = Some (2 + 2 + 1) ∧
    2 + 2 + 1 ≤ colorMaxOf Black t'.
Proof.
  apply (merge_correctness gapped "b" Black (1, 3) LeftRight 2 2).
  - apply gapped_reachable.
  - reflexivity.
  - solve_cell_empty.
  - apply gapped_left_run.
  - apply gapped_right_run.
Defined.

Lemma run_uniformity_witness :
  getKey LeftRight <$> dictOf Black bridged !! line LeftRight (1, 1) 4 = Some 5.
Proof.
  apply (run_uniformity bridged Black LeftRight (1, 1) 5 4).
  - apply bridged_reachable.
  - apply bridged_run.
  - lia.
Defined.

(** ** The command layer *)

Lemma withBoard_same self : withBoard self (board self) = self.
Proof. by destruct self. Qed.

Lemma play_move_false b point color b' :
  play_move b point color = Ok (false, b') → b' = b.
Proof.
  unfold play_move. destruct (negb (is_black_white color)); [done|].
  destruct point as [pt|]; [|done]. destruct (stones b !! pt); by intros [= ].
Qed.

Lemma play_move_true_stone b pt color b' :
  play_move b (Some pt) color = Ok (true, b') →
  stones b !! pt = None ∧ b' = mkBoard (bsize b) (<[pt := color]> (stones b))
                                       (current_player b).
Proof.
  unfold play_move. destruct (negb (is_black_white color)); [done|].
  destruct (stones b !! pt); [done|]. by intros [= <-].
Qed.

Lemma move_to_coord_not_pass MAXSIZE args1 board_size row col :
  move_to_coord MAXSIZE args1 board_size = Ok (RC row col) →
  String.eqb (lower args1) "pass" = false.
Proof.
  unfold move_to_coord.
  destruct (negb _); [done|]. by destruct (String.eqb (lower args1) "pass").
Qed.

Lemma move_to_coord_in_range MAXSIZE point_str board_size row col :
  move_to_coord MAXSIZE point_str board_size = Ok (RC row col) →
  2 ≤ board_size ≤ MAXSIZE ∧ 1 ≤ row ≤ board_size ∧ 1 ≤ col ≤ board_size ∧
  col ≤ 25.
Proof.
  unfold move_to_coord.
  destruct (negb _) eqn:Hsz; [done|].
  destruct (String.eqb _ "pass"); [done|].
  destruct (parse_point (lower point_str)) as [[r c]|] eqn:Hp; [|done].
  destruct (negb ((c <=? board_size) && (r <=? board_size))) eqn:Hon; [done|].
  intros [= -> ->].
  unfold parse_point in Hp. destruct (lower point_str) as [|col_c rest]; [done|].
  destruct (negb _ || _) eqn:Hletter; [done|].
  destruct (py_int rest) as [r|]; [|done].
  destruct (r <? 1) eqn:Hr; [done|]. injection Hp as -> <-.
  apply orb_false_elim in Hletter as [Hl _].
  change (ord "a") with 97 in *. change (ord "z") with 122 in *.
  change (ord "i") with 105 in *.
  destruct (ord col_c <? 105) eqn:Hi; lia.
Qed.

(** C4.  No-op on rejection: a [play] command answered with a rejection
    (occupied cell, coordinate off the board or malformed, game already
    won) leaves the board occupancy, both dictionaries and both maxima as
    they were: the whole connection state is unchanged. *)
Theorem play_cmd_rejected_unchanged MAXSIZE self args0 args1 :
  rejected (play_cmd MAXSIZE self args0 args1).1 →
  (play_cmd MAXSIZE self args0 args1).2 = self.
Proof.
  unfold play_cmd.
  destruct (color_to_int (lower args0)) as [color|e]; [|done].
  destruct (String.eqb (lower args1) "pass").
  { destruct (play_move (board self) None color) as [[? b]|e]; [|done].
    simpl. intros [[? [=]]|[[=]|[? [=]]]]. }
  destruct (move_to_coord MAXSIZE args1 (bsize (board self))) as [[|row col]|e];
    [done| |done].
  destruct (tracker self) as [t|] eqn:Ht; [|done].
  destruct (oneSideWon t); [done|].
  destruct (play_move (board self) _ color) as [[[|] b]|e] eqn:Hplay; [| |done].
  - destruct (insertKeyIntoDict t args0 (row, col)) as [t'|e] eqn:Hins; simpl.
    + intros [[? [=]]|[[=]|[? [=]]]].
    + unfold insertKeyIntoDict in Hins.
      destruct (String.eqb (lower args0) "w"); [done|].
      destruct (String.eqb (lower args0) "b"); [done|].
      injection Hins as <-. intros [[? [=]]|[[=]|[? [=]]]].
  - apply play_move_false in Hplay as ->. intros _. apply withBoard_same.
Qed.

Lemma play_cmd_rejected_unchanged_witness :
  (play_cmd 25 oneStone "w" "B2").2 = oneStone.
Proof.
  apply play_cmd_rejected_unchanged.
  left. exists "B2"%string. vm_compute. reflexivity.
Defined.

(** The three rejections, by cause. *)

Lemma move_to_coord_raises MAXSIZE point_str board_size e :
  move_to_coord MAXSIZE point_str board_size = Raise e → ∃ msg, e = ValueError msg.
Proof.
  unfold move_to_coord. destruct (negb _); [intros [= <-]; eauto|].
  destruct (String.eqb _ "pass"); [done|].
  destruct (parse_point _) as [[r c]|]; [|intros [= <-]; eauto].
  destruct (negb _); [intros [= <-]; eauto|done].
Qed.

Lemma play_cmd_bad_coordinate MAXSIZE self args0 args1 color e :
  color_to_int (lower args0) = Ok color →
  String.eqb (lower args1) "pass" = false →
  move_to_coord MAXSIZE args1 (bsize (board self)) = Raise e →
  play_cmd MAXSIZE self args0 args1 = (RespondException e, self).
Proof. intros Hc Hp Hm. unfold play_cmd. by rewrite Hc, Hp, Hm. Qed.

Lemma play_cmd_game_over MAXSIZE self args0 args1 color row col t :
  color_to_int (lower args0) = Ok color →
  move_to_coord MAXSIZE args1 (bsize (board self)) = Ok (RC row col) →
  tracker self = Some t → oneSideWon t = true →
  play_cmd MAXSIZE self args0 args1 = (Respond "One side is win game over!", self).
Proof.
  intros Hc Hm Ht Hw. unfold play_cmd.
  by rewrite Hc, (move_to_coord_not_pass _ _ _ _ _ Hm), Hm, Ht, Hw.
Qed.

Lemma play_cmd_occupied MAXSIZE self args0 args1 color row col t :
  color_to_int (lower args0) = Ok color → is_black_white color = true →
  move_to_coord MAXSIZE args1 (bsize (board self)) = Ok (RC row col) →
  tracker self = Some t → oneSideWon t = false →
  is_Some (stones (board self) !! coord_to_point row col (bsize (board self))) →
  play_cmd MAXSIZE self args0 args1
  = (Respond ("Illegal Move: " +:+ args1), self).
Proof.
  intros Hc Hbw Hm Ht Hw [c Hocc]. unfold play_cmd.
  rewrite Hc, (move_to_coord_not_pass _ _ _ _ _ Hm), Hm, Ht, Hw.
  unfold play_move. rewrite Hbw, Hocc. simpl. by rewrite withBoard_same.
Qed.

(** C10.  Before any [clear_board] the tracker does not exist: a [play]
    command with a valid stone coordinate raises inside [play_cmd], is
    answered with the handler's error response, and changes nothing (no
    stone is recorded). *)
Theorem play_cmd_before_clear_board MAXSIZE self args0 args1 row col :
  tracker self = None →
  move_to_coord MAXSIZE args1 (bsize (board self)) = Ok (RC row col) →
  ∃ e, play_cmd MAXSIZE self args0 args1 = (RespondException e, self).
Proof.
  intros Ht Hm. unfold play_cmd.
  destruct (color_to_int (lower args0)) as [color|e]; [|eauto].
  rewrite (move_to_coord_not_pass _ _ _ _ _ Hm), Hm, Ht. eauto.
Qed.

Lemma play_cmd_before_clear_board_witness :
  ∃ e, play_cmd 25 (newConnection (mkBoard 3 ∅ BLACK)) "b" "b2"
       = (RespondException e, newConnection (mkBoard 3 ∅ BLACK)).
Proof.
  apply (play_cmd_before_clear_board 25 _ "b" "b2" 2 2); reflexivity.
Defined.

(** C8.  A pass ([args1] is [pass] in any letter case) by Black or White
    is answered with success, leaves the tracker (both dictionaries and
    both maxima) and the stones as they were, and makes the opponent of the
    given colour the player to move. *)
Theorem play_cmd_pass MAXSIZE self args0 args1 color :
  color_to_int (lower args0) = Ok color → is_black_white color = true →
  lower args1 = "pass"%string →
  play_cmd MAXSIZE self args0 args1
  = (Respond "",
     mkGtp (mkBoard (bsize (board self)) (stones (board self)) (opponent color))
           (tracker self)).
Proof.
  intros Hc Hbw Hp. unfold play_cmd, play_move.
  by rewrite Hc, Hp, Hbw.
Qed.

Lemma play_cmd_pass_witness :
  play_cmd 25 oneStone "B" "Pass"
  = (Respond "",
     mkGtp (mkBoard (bsize (board oneStone)) (stones (board oneStone))
                    (opponent BLACK))
           (tracker oneStone)).
Proof. apply (play_cmd_pass 25 oneStone "B" "Pass" BLACK); reflexivity. Defined.

(** [clear_board] does discard the tracker ... *)
Lemma clear_board_cmd_discards MAXSIZE self :
  2 ≤ bsize (board self) ≤ MAXSIZE →
  clear_board_cmd MAXSIZE self
  = Ok (Respond "", mkGtp (mkBoard (bsize (board self)) ∅ BLACK)
                          (Some clearedTracker)).
Proof.
  intros Hs. unfold clear_board_cmd, reset.
  destruct (Z.leb_spec 2 (bsize (board self))); [|lia].
  by destruct (Z.leb_spec (bsize (board self)) MAXSIZE); [|lia].
Qed.

(** ... but [boardsize] only resets the board. *)
Lemma boardsize_cmd_keeps_tracker MAXSIZE self arg r self' :
  boardsize_cmd MAXSIZE self arg = Ok (r, self') → tracker self' = tracker self.
Proof.
  unfold boardsize_cmd. destruct (py_int arg) as [sz|]; [|done].
  destruct (reset MAXSIZE sz); [|done]. by intros [= _ <-].
Qed.

(** Without a [clear_board] the tracker is never created. *)
Lemma tracker_needs_clear_board MAXSIZE b cmds :
  ClearBoard ∉ cmds → tracker (run MAXSIZE (newConnection b) cmds) = None.
Proof.
  unfold run. induction cmds as [|cmd cmds IH] using rev_ind; [done|].
  intros [Hcmds Hcmd%not_elem_of_cons]%not_elem_of_app.
  rewrite foldl_app. simpl. specialize (IH Hcmds).
  destruct cmd as [|arg|args0 args1]; simpl; [by destruct Hcmd| |].
  - destruct (boardsize_cmd MAXSIZE _ arg) as [[r self']|e] eqn:Hb; [|done].
    by rewrite (boardsize_cmd_keeps_tracker _ _ _ _ _ Hb).
  - unfold play_cmd.
    destruct (color_to_int (lower args0)) as [color|e]; [|done].
    destruct (String.eqb (lower args1) "pass").
    { by destruct (play_move _ None color) as [[? b']|e]. }
    destruct (move_to_coord MAXSIZE args1 _) as [[|row col]|e]; [done| |done].
    by rewrite IH.
Qed.

(** C7, at the failing input.  After [clear_board], [play b a1] and
    [boardsize 5] the board is empty again, yet Black's dictionary still
    holds the stone on [(1, 1)] and Black's maximum is still 1. *)
Theorem boardsize_keeps_stale_tracker :
  stones (board resized) = ∅ ∧
  tracker resized
  = Some (mkTracker ∅ {[ (1, 1) := mkEntry 1 1 1 1 ]} 1 0).
Proof. split; vm_compute; reflexivity. Qed.

(** ** What [play_cmd] can do to the state *)

Lemma play_move_black_white b point color r :
  play_move b point color = Ok r → is_black_white color = true.
Proof. unfold play_move. by destruct (is_black_white color). Qed.

Lemma color_to_int_black_white c color :
  color_to_int c = Ok color → is_black_white color = true →
  String.eqb c "w" = true ∨ String.eqb c "b" = true.
Proof.
  unfold color_to_int. destruct (String.eqb c "b"); [auto|].
  destruct (String.eqb c "w"); [auto|].
  destruct (String.eqb c "e"); [by intros [= <-]|].
  destruct (String.eqb c "BORDER"); [by intros [= <-]|done].
Qed.

(** Inside [play_cmd] the call of [insertKeyIntoDict] cannot raise: the
    colour has passed [color_to_int] and the board's assertion. *)
Lemma insertKeyIntoDict_total t args0 color (coord : Coord) :
  color_to_int (lower args0) = Ok color → is_black_white color = true →
  ∃ t', insertKeyIntoDict t args0 coord = Ok t'.
Proof.
  intros Hc Hbw. unfold insertKeyIntoDict.
  destruct (color_to_int_black_white _ _ Hc Hbw) as [-> | Hb]; [eauto|].
  destruct (String.eqb (lower args0) "w"); [eauto|]. rewrite Hb. eauto.
Qed.

Lemma play_cmd_cases MAXSIZE self args0 args1 :
  let self' := (play_cmd MAXSIZE self args0 args1).2 in
  (tracker self' = tracker self ∧ stones (board self') = stones (board self) ∧
   bsize (board self') = bsize (board self))
  ∨ ∃ t t' row col color,
      tracker self = Some t ∧ oneSideWon t = false ∧
      move_to_coord MAXSIZE args1 (bsize (board self)) = Ok (RC row col) ∧
      stones (board self) !! coord_to_point row col (bsize (board self)) = None ∧
      insertKeyIntoDict t args0 (row, col) = Ok t' ∧
      self' = mkGtp (mkBoard (bsize (board self))
                       (<[coord_to_point row col (bsize (board self)) := color]>
                          (stones (board self)))
                       (current_player (board self)))
                    (Some t').
Proof.
  unfold play_cmd.
  destruct (color_to_int (lower args0)) as [color|e] eqn:Hc; [|by left].
  destruct (String.eqb (lower args1) "pass").
  { destruct (play_move (board self) None color) as [[? b]|e] eqn:Hp; [|by left].
    left. unfold play_move in Hp. destruct (negb _); [done|].
    by injection Hp as _ <-. }
  destruct (move_to_coord MAXSIZE args1 (bsize (board self)))
    as [[|row col]|e] eqn:Hm; [by left| |by left].
  destruct (tracker self) as [t|] eqn:Ht; [|by left].
  destruct (oneSideWon t) eqn:Hw; [by left|].
  destruct (play_move (board self) _ color) as [[[|] b]|e] eqn:Hplay; [| |by left].
  - pose proof (play_move_black_white _ _ _ _ Hplay) as Hbw.
    apply play_move_true_stone in Hplay as [Hfree ->].
    destruct (insertKeyIntoDict_total t args0 color (row, col) Hc Hbw) as [t' Hins].
    rewrite Hins. right. by exists t, t', row, col, color.
  - apply play_move_false in Hplay as ->. left. by rewrite withBoard_same.
Qed.

(** ** Invariants of command sequences *)

Lemma oneSideWon_false t :
  oneSideWon t = false ↔ colorMax_w t < 5 ∧ colorMax_b t < 5.
Proof. unfold oneSideWon. rewrite orb_false_iff, !Z.leb_gt. done. Qed.

Lemma oneSideWon_true t :
  oneSideWon t = true ↔ 5 ≤ colorMax_w t ∨ 5 ≤ colorMax_b t.
Proof. unfold oneSideWon. rewrite orb_true_iff, !Z.leb_le. done. Qed.

Lemma insert_other_max t color (coord : Coord) t' :
  insertKeyIntoDict t color coord = Ok t' →
  colorMax_w t' = colorMax_w t ∨ colorMax_b t' = colorMax_b t.
Proof.
  unfold insertKeyIntoDict.
  destruct (String.eqb (lower color) "w"); [intros [= <-]; by right|].
  destruct (String.eqb (lower color) "b"); [intros [= <-]; by left|done].
Qed.

Lemma step_one_winner MAXSIZE self cmd :
  one_winner self → one_winner (step MAXSIZE self cmd).
Proof.
  intros Hinv. destruct cmd as [|arg|args0 args1]; simpl.
  - unfold clear_board_cmd. destruct (reset _ _); [|done].
    intros t [= <-]. simpl. lia.
  - destruct (boardsize_cmd MAXSIZE self arg) as [[r self']|e] eqn:Hb; [|done].
    intros t Ht. apply Hinv. by rewrite <- (boardsize_cmd_keeps_tracker _ _ _ _ _ Hb).
  - destruct (play_cmd_cases MAXSIZE self args0 args1)
      as [(Ht & _)|(t & t' & row & col & color & Ht & Hw & _ & _ & Hins & ->)].
    + intros t. rewrite Ht. apply Hinv.
    + intros ? [= <-]. apply oneSideWon_false in Hw.
      destruct (insert_other_max _ _ _ _ Hins) as [-> | ->]; lia.
Qed.

(** Whatever the commands, the two maxima are never both at five or more:
    a placement is only recorded while both are below five, and it raises
    one of them. *)
Lemma at_most_one_winner MAXSIZE b cmds :
  one_winner (run MAXSIZE (newConnection b) cmds).
Proof.
  unfold run. induction cmds as [|cmd cmds IH] using rev_ind; [done|].
  rewrite foldl_app. simpl. by apply step_one_winner.
Qed.

(** Through [play_cmd] as well, an existing maximum never goes down. *)
Lemma play_cmd_max_le MAXSIZE self args0 args1 t p :
  tracker self = Some t →
  ∃ t', tracker (play_cmd MAXSIZE self args0 args1).2 = Some t' ∧
        colorMaxOf p t ≤ colorMaxOf p t'.
Proof.
  intros Ht.
  destruct (play_cmd_cases MAXSIZE self args0 args1)
    as [(Hsame & _)|(t0 & t' & row & col & color & Ht0 & _ & _ & _ & Hins & ->)].
  - exists t. rewrite Hsame. split; [done|lia].
  - assert (t0 = t) as -> by congruence. exists t'. split; [done|].
    pose proof (recordPlacement_max_le t args0 (row, col) p) as H.
    unfold recordPlacement in H. by rewrite Hins in H.
Qed.

Lemma insert_keys t color (coord : Coord) t' p row col :
  insertKeyIntoDict t color coord = Ok t' →
  is_Some (dictOf p t' !! (row, col)) →
  (row, col) = coord ∨ is_Some (dictOf p t !! (row, col)).
Proof.
  intros Hins. destruct (insert_playerOf _ _ _ _ Hins) as [q Hq].
  destruct (playerOf_insert t color coord q Hq) as (t'' & Hins' & Hd & _ & Hother).
  assert (t'' = t') as -> by congruence.
  destruct (decide (p = q)) as [->|Hne].
  - rewrite Hd. apply updateDict_dom.
  - destruct (Hother p Hne) as [-> _]. auto.
Qed.

Lemma clear_board_in_game MAXSIZE self :
  2 ≤ bsize (board self) ≤ MAXSIZE → in_game (step MAXSIZE self ClearBoard).
Proof.
  intros Hs. simpl. rewrite clear_board_cmd_discards by done.
  exists clearedTracker. split; [done|]. split; [constructor|].
  intros p row col [e He]. by destruct p.
Qed.

(** A [play] command keeps the game going: when it records a stone, the
    board's occupancy check has made sure the cell is empty for the
    tracker too. *)
Lemma play_in_game MAXSIZE self args0 args1 :
  in_game self → in_game (step MAXSIZE self (Play args0 args1)).
Proof.
  intros (t & Ht & Hr & Hsync). simpl.
  destruct (play_cmd_cases MAXSIZE self args0 args1)
    as [(Ht' & Hst & Hsz)|(t0 & t' & row & col & color & Ht0 & _ & _ & Hfree & Hins & ->)].
  - exists t. split; [by rewrite Ht'|]. split; [done|].
    intros p r c Hs. rewrite Hst, Hsz. by apply (Hsync p).
  - assert (t0 = t) as -> by congruence.
    assert (cell_empty t (row, col)) as Hempty.
    { split; apply eq_None_not_Some; intros Hs.
      - destruct (Hsync White row col Hs) as [? ?]. congruence.
      - destruct (Hsync Black row col Hs) as [? ?]. congruence. }
    exists t'. split; [done|]. split; [by econstructor|].
    intros p r c Hs. simpl.
    destruct (insert_keys _ _ _ _ p r c Hins Hs) as [[= -> ->]|Hold].
    + by rewrite lookup_insert_eq.
    + rewrite lookup_insert. case_decide; [done|]. by apply (Hsync p).
Qed.

(** Every tracker that [clear_board] followed by [play] commands produces
    is a state of one game in the sense of [reachable]. *)
Lemma game_reachable MAXSIZE self plays :
  2 ≤ bsize (board self) ≤ MAXSIZE →
  ∃ t, tracker (run MAXSIZE self
                  (ClearBoard :: ((λ a, Play a.1 a.2) <$> plays))) = Some t
       ∧ reachable t.
Proof.
  intros Hs. unfold run. simpl foldl.
  pose proof (clear_board_in_game MAXSIZE self Hs) as Hg. simpl in Hg.
  revert Hg. generalize (match clear_board_cmd MAXSIZE self with
                         | Ok (_, self') => self' | Raise _ => self end).
  induction plays as [|[a0 a1] plays IH]; intros s Hg; simpl.
  - destruct Hg as (t & ? & ? & _). eauto.
  - apply IH. by apply (play_in_game MAXSIZE s a0 a1).
Qed.

(** ** The final result *)

(** C3, counterexample.  The 5 by 5 game [fullBoardGame] ends with Black
    completing five in row 1 on the last free cell: Black's maximum is 5,
    no empty point is left, and the final result is "draw", not a win. *)
Lemma final_result_full_board_is_draw :
  (∃ t, tracker fullBoard = Some t ∧ 5 ≤ colorMax_b t) ∧
  get_empty_points (board fullBoard) = [] ∧
  gogui_rules_final_result_cmd fullBoard = Ok (Respond "draw") ∧
  gogui_rules_final_result_cmd fullBoard ≠ Ok (Respond "black win").
Proof.
  split; [|split; [|split]].
  - eexists. split; [vm_compute; reflexivity|]. vm_compute. by intros [=].
  - vm_compute. reflexivity.
  - vm_compute. reflexivity.
  - vm_compute. by intros [=].
Qed.

Lemma final_result_full self :
  get_empty_points (board self) = [] →
  gogui_rules_final_result_cmd self = Ok (Respond "draw").
Proof. intros H. unfold gogui_rules_final_result_cmd. by rewrite H. Qed.

Lemma final_result_white self t :
  tracker self = Some t → get_empty_points (board self) ≠ [] →
  5 ≤ colorMax_w t →
  gogui_rules_final_result_cmd self = Ok (Respond "white win").
Proof.
  intros Ht Hne Hw. unfold gogui_rules_final_result_cmd. rewrite Ht.
  rewrite decide_False by (by destruct (get_empty_points _)).
  by destruct (Z.leb_spec 5 (colorMax_w t)); [|lia].
Qed.

Lemma final_result_black self t :
  tracker self = Some t → get_empty_points (board self) ≠ [] →
  5 ≤ colorMax_b t → colorMax_w t < 5 →
  gogui_rules_final_result_cmd self = Ok (Respond "black win").
Proof.
  intros Ht Hne Hb Hw. unfold gogui_rules_final_result_cmd. rewrite Ht.
  rewrite decide_False by (by destruct (get_empty_points _)).
  destruct (Z.leb_spec 5 (colorMax_w t)); [lia|].
  by destruct (Z.leb_spec 5 (colorMax_b t)); [|lia].
Qed.

(** C3, amended.  The board-full test comes first ("evaluation goes after
    draw!"): with no empty point the result is "draw" whatever the maxima;
    with an empty point left, White is the winner when White's maximum is
    at least 5, and Black is when Black's is and White's is not. *)
Theorem final_result_winner self t :
  tracker self = Some t →
  (get_empty_points (board self) = [] →
     gogui_rules_final_result_cmd self = Ok (Respond "draw")) ∧
  (get_empty_points (board self) ≠ [] → 5 ≤ colorMax_w t →
     gogui_rules_final_result_cmd self = Ok (Respond "white win")) ∧
  (get_empty_points (board self) ≠ [] → 5 ≤ colorMax_b t → colorMax_w t < 5 →
     gogui_rules_final_result_cmd self = Ok (Respond "black win")).
Proof.
  intros Ht. split; [|split].
  - apply final_result_full.
  - by apply final_result_white.
  - by apply final_result_black.
Qed.

Lemma final_result_winner_witness :
  gogui_rules_final_result_cmd fiveInRow = Ok (Respond "black win").
Proof.
  assert (tracker fiveInRow
          = Some (default clearedTracker (tracker fiveInRow))) as Ht
    by (vm_compute; reflexivity).
  destruct (final_result_winner fiveInRow _ Ht) as (_ & _ & H).
  apply H; vm_compute; congruence.
Defined.

(** ** The win threshold *)

(** C6, counterexample.  In the full-board game Black's maximum is exactly
    5, and the win is not reported. *)
Lemma exactly_five_not_reported :
  colorMaxOf Black <$> tracker fullBoard = Some 5 ∧
  gogui_rules_final_result_cmd fullBoard ≠ Ok (Respond (winMessage Black)).
Proof. split; vm_compute; [reflexivity|by intros [=]]. Qed.

Lemma final_result_not_win self t p :
  tracker self = Some t → colorMaxOf p t ≤ 4 →
  gogui_rules_final_result_cmd self ≠ Ok (Respond (winMessage p)).
Proof.
  intros Ht Hp. unfold gogui_rules_final_result_cmd. rewrite Ht.
  case_decide; [by destruct p|].
  destruct (Z.leb_spec 5 (colorMax_w t)), (Z.leb_spec 5 (colorMax_b t));
    destruct p; simpl in *; (done || lia).
Qed.

Lemma play_cmd_not_game_over MAXSIZE self args0 args1 t :
  tracker self = Some t → oneSideWon t = false →
  (play_cmd MAXSIZE self args0 args1).1 ≠ Respond "One side is win game over!".
Proof.
  intros Ht Hw. unfold play_cmd.
  destruct (color_to_int (lower args0)) as [color|e]; [|done].
  destruct (String.eqb (lower args1) "pass").
  { by destruct (play_move (board self) None color) as [[? b]|e]. }
  destruct (move_to_coord MAXSIZE args1 (bsize (board self))) as [[|row col]|e];
    [done| |done].
  rewrite Ht, Hw.
  destruct (play_move (board self) _ color) as [[[|] b]|e]; [|done..].
  by destruct (insertKeyIntoDict t args0 (row, col)).
Qed.

(** C6, amended.  The threshold is exactly "at least 5".  A maximum of 5
    (or more) for a player makes [play_cmd] refuse every stone, makes
    [gogui_rules_legal_moves_cmd] list no move and [genmove_cmd] resign,
    and makes the final result that player's win as long as an empty point
    is left and the other player is below 5.  With both maxima at 4 or
    less none of this happens: no stone is refused as "game over", the
    legal moves are listed, the engine is asked for a move; and a player
    at 4 or less is never reported as the winner. *)
Theorem win_threshold_exact MAXSIZE engine_move self t :
  tracker self = Some t →
  (∀ p, 5 ≤ colorMaxOf p t →
     (∀ args0 args1 color row col,
        color_to_int (lower args0) = Ok color →
        move_to_coord MAXSIZE args1 (bsize (board self)) = Ok (RC row col) →
        play_cmd MAXSIZE self args0 args1
        = (Respond "One side is win game over!", self)) ∧
     gogui_rules_legal_moves_cmd MAXSIZE self = Ok (Respond "") ∧
     (∀ arg, genmove_cmd engine_move self arg = Ok (Respond "resign", self)) ∧
     (get_empty_points (board self) ≠ [] → colorMaxOf (otherPlayer p) t < 5 →
        gogui_rules_final_result_cmd self = Ok (Respond (winMessage p)))) ∧
  (∀ p, colorMaxOf p t ≤ 4 →
     gogui_rules_final_result_cmd self ≠ Ok (Respond (winMessage p))) ∧
  (colorMax_w t ≤ 4 → colorMax_b t ≤ 4 →
     (∀ args0 args1,
        (play_cmd MAXSIZE self args0 args1).1 ≠ Respond "One side is win game over!") ∧
     gogui_rules_legal_moves_cmd MAXSIZE self
     = match format_points MAXSIZE (get_empty_points (board self))
               (bsize (board self)) with
       | Raise e => Raise e
       | Ok gtp_moves => Ok (Respond (upper (join " " (sorted gtp_moves))))
       end ∧
     (∀ arg, genmove_cmd engine_move self arg = engine_move self arg)).
Proof.
  intros Ht. split; [|split].
  - intros p Hp.
    assert (oneSideWon t = true) as Hw
      by (apply oneSideWon_true; destruct p; auto).
    split; [|split; [|split]].
    + intros args0 args1 color row col Hc Hm.
      by apply (play_cmd_game_over _ _ _ _ color row col t).
    + unfold gogui_rules_legal_moves_cmd. by rewrite Ht, Hw.
    + intros arg. unfold genmove_cmd. by rewrite Ht, Hw.
    + intros Hne Hother. destruct p; simpl in *.
      * by apply (final_result_black self t).
      * by apply (final_result_white self t).
  - intros p Hp. by apply (final_result_not_win self t).
  - intros Hw Hb.
    assert (oneSideWon t = false) as Hnw by (apply oneSideWon_false; lia).
    split; [|split].
    + intros args0 args1. by apply (play_cmd_not_game_over _ _ _ _ t).
    + unfold gogui_rules_legal_moves_cmd. by rewrite Ht, Hnw.
    + intros arg. unfold genmove_cmd. by rewrite Ht, Hnw.
Qed.

Lemma win_threshold_exact_witness :
  gogui_rules_legal_moves_cmd 25 fiveInRow = Ok (Respond "") ∧
  play_cmd 25 fiveInRow "w" "a2" = (Respond "One side is win game over!", fiveInRow).
Proof.
  assert (tracker fiveInRow
          = Some (default clearedTracker (tracker fiveInRow))) as Ht
    by (vm_compute; reflexivity).
  destruct (win_threshold_exact 25 (λ self _, Ok (Respond "", self)) fiveInRow _ Ht)
    as (Hfive & _ & _).
  destruct (Hfive Black) as (Hplay & Hlegal & _); [vm_compute; congruence|].
  split; [exact Hlegal|].
  apply (Hplay "w" "a2" WHITE 2 1); reflexivity.
Defined.

(** ** Coordinates as text *)

(** C9, at the failing input.  [format_point] refuses the last row and the
    last column of a board of size [MAXSIZE], which [move_to_coord]
    accepts: its guard [0 <= row < MAXSIZE] is written for coordinates
    that start at 0. *)
Theorem format_point_last_line_raises MAXSIZE n :
  format_point MAXSIZE (RC MAXSIZE n) = Raise (ValueError "") ∧
  format_point MAXSIZE (RC n MAXSIZE) = Raise (ValueError "") ∧
  move_to_coord 25 "a25" 25 = Ok (RC 25 1) ∧
  format_point 25 (RC 25 1) = Raise (ValueError "").
Proof.
  split; [|split; [|split; reflexivity]].
  - unfold format_point. by rewrite Z.ltb_irrefl, andb_false_r.
  - unfold format_point. by rewrite Z.ltb_irrefl, andb_false_r, orb_true_r.
Qed.

(** On the largest board the listing of legal moves raises. *)
Lemma legal_moves_raise_on_largest_board :
  gogui_rules_legal_moves_cmd 25 largestBoard = Raise (ValueError "").
Proof. vm_compute. reflexivity. Qed.

(** Decimal digits. *)

Lemma string_of_uint_digits d : all_digits (NilEmpty.string_of_uint d) = true.
Proof. induction d; simpl; try done. Qed.

Lemma digit_facts a :
  is_digit a = true →
  lower_char a = a ∧ is_space a = false ∧ Ascii.eqb a "a" = false ∧
  (∀ rest, py_int (String a rest) = digits_val 0 false (String a rest)).
Proof.
  destruct a as [[] [] [] [] [] [] [] []]; try discriminate; intros _;
    repeat split.
Qed.

Lemma lower_digits s : all_digits s = true → lower s = s.
Proof.
  induction s as [|a s IH]; simpl; [done|].
  intros [Ha Hs]%andb_prop. rewrite IH by done.
  by destruct (digit_facts a Ha) as (-> & _).
Qed.

Lemma digits_val_acc d : ∀ p,
  digits_val (Z.pos p) true (NilEmpty.string_of_uint d)
  = Some (Z.pos (Pos.of_uint_acc d p)).
Proof.
  induction d; intros p; simpl; [done|..];
    match goal with
    | |- digits_val ?z _ _ = Some (Z.pos (Pos.of_uint_acc _ ?q)) =>
        replace z with (Z.pos q) by (unfold ord; simpl; lia)
    end; apply IHd.
Qed.

Lemma digits_val_0 d : ∀ b,
  b = true ∨ d ≠ Decimal.Nil →
  digits_val 0 b (NilEmpty.string_of_uint d) = Some (Z.of_N (Pos.of_uint d)).
Proof.
  induction d; intros b Hb; simpl;
    [by destruct Hb as [-> | ?]
    |replace (10 * 0 + (ord "0" - 48)) with 0 by done; apply IHd; by left
    |match goal with
     | |- digits_val ?z _ _ = _ =>
         let q := eval vm_compute in (Z.to_pos z) in
         change z with (Z.pos q); apply digits_val_acc
     end..].
Qed.

Lemma str_pos p : str (Z.pos p) = NilEmpty.string_of_uint (Pos.to_uint p).
Proof.
  unfold str. simpl. unfold NilZero.string_of_uint.
  pose proof (DecimalPos.Unsigned.to_uint_nonnil p). by destruct (Pos.to_uint p).
Qed.

Lemma str_digits row : 0 < row → all_digits (str row) = true.
Proof. destruct row; try lia. intros _. rewrite str_pos. apply string_of_uint_digits. Qed.

Lemma str_first_digit row :
  0 < row → ∃ a rest, str row = String a rest ∧ is_digit a = true.
Proof.
  intros Hr. pose proof (str_digits row Hr) as Hd.
  destruct row as [|p|]; try lia. rewrite str_pos in *.
  pose proof (DecimalPos.Unsigned.to_uint_nonnil p) as Hn.
  destruct (NilEmpty.string_of_uint (Pos.to_uint p)) as [|a rest] eqn:E.
  - by destruct (Pos.to_uint p).
  - simpl in Hd. apply andb_prop in Hd as [Ha _]. eauto.
Qed.

(** [int(str(row))] is [row]. *)
Lemma py_int_str row : 0 < row → py_int (str row) = Some row.
Proof.
  intros Hr. destruct (str_first_digit row Hr) as (a & rest & E & Ha).
  rewrite E. destruct (digit_facts a Ha) as (_ & _ & _ & ->). rewrite <- E.
  destruct row as [|p|]; try lia. rewrite str_pos.
  rewrite digits_val_0 by (right; apply DecimalPos.Unsigned.to_uint_nonnil).
  by rewrite DecimalPos.Unsigned.of_to.
Qed.

(** The column letters: [a] to [z] without [i], so that column 9 is [j]. *)

Ltac z_cases x n :=
  first [ lia
        | destruct (Z.eq_dec x n) as [->|?];
          [|let n' := eval vm_compute in (n + 1) in z_cases x n'] ].

Lemma column_letter col :
  1 ≤ col ≤ 25 →
  ∃ ch, py_index column_letters (col - 1) = Some ch ∧
    lower_char ch = ch ∧
    negb ((ord "a" <=? ord ch) && (ord ch <=? ord "z")) || Ascii.eqb ch "i" = false ∧
    (if ord ch <? ord "i" then ord ch - ord "a" + 1 else ord ch - ord "a") = col.
Proof.
  intros Hc. z_cases col 1; eexists; (split; [reflexivity|]); by vm_compute.
Qed.

Lemma column_nine : py_index column_letters (9 - 1) = Some "j"%char.
Proof. reflexivity. Qed.

Lemma move_to_coord_no_i MAXSIZE rest board_size :
  ∃ msg, move_to_coord MAXSIZE (String "i" rest) board_size
         = Raise (ValueError msg).
Proof.
  unfold move_to_coord. destruct (negb _); [eauto|]. simpl. eauto.
Qed.

(** Below [MAXSIZE] the two directions agree: [move_to_coord] reads back
    what [format_point] writes. *)
Lemma coord_roundtrip MAXSIZE N row col :
  2 ≤ N ≤ MAXSIZE → 1 ≤ row ≤ N → 1 ≤ col ≤ N →
  row < MAXSIZE → col < MAXSIZE → col ≤ 25 →
  ∃ s, format_point MAXSIZE (RC row col) = Ok s ∧
       move_to_coord MAXSIZE s N = Ok (RC row col).
Proof.
  intros HN Hrow Hcol Hr Hc H25.
  destruct (column_letter col) as (ch & Hidx & Hlow & Hletter & Hval); [lia|].
  exists (String ch (str row)). split.
  - unfold format_point. rewrite Hidx.
    destruct (Z.leb_spec 0 row), (Z.ltb_spec row MAXSIZE),
             (Z.leb_spec 0 col), (Z.ltb_spec col MAXSIZE); (done || lia).
  - unfold move_to_coord.
    destruct (Z.leb_spec 2 N), (Z.leb_spec N MAXSIZE); try lia. simpl negb.
    cbv iota. simpl lower. rewrite Hlow, lower_digits by (apply str_digits; lia).
    destruct (str_first_digit row) as (a & rest & E & Ha); [lia|].
    assert (String.eqb (String ch (str row)) "pass" = false) as ->.
    { rewrite E. simpl. destruct (Ascii.eqb ch "p"); [|done].
      by destruct (digit_facts a Ha) as (_ & _ & -> & _). }
    unfold parse_point. rewrite Hletter, Hval, py_int_str by lia.
    destruct (Z.ltb_spec row 1); [lia|].
    by destruct (Z.leb_spec col N), (Z.leb_spec row N); try lia.
Qed.
